(** * Password strength meter: the policy predicates of password_strength.c

    A shallow embedding of the predicates, the two policies and the default
    password generator of [password_strength.c], and the properties they
    have.

    Conventions of the embedding.
    - A [const char*] argument is the list of the bytes stored at the
      pointer; the byte after the last one of the list is the terminating
      NUL.  A NUL inside the list ends the string there, as it does for the
      C code, and the bytes after it are memory the string does not use (the
      rest of a 100-byte input buffer, say).  Reading past the terminator
      that follows the list leaves the object: [Fault].
    - [size_t] is 64 bits wide, [int] 32 bits; values of both are written in
      [Z], the unsigned subtraction with its wrap-around.  The scans indexed
      by an [int] are followed for strings of at most [INT_MAX] bytes, where
      the index cannot overflow.
    - [rand()] is a sequence of integers the seed has fixed; the generator
      threads the number of calls made so far. *)

From Stdlib Require Import ZArith Lia Bool Strings.Byte String.
From stdpp Require Import base list.

Open Scope Z_scope.

(** ** Outcomes of code that reads or writes memory through an index *)

Inductive res (A : Type) : Type :=
| Ret (a : A)
| Fault.

Arguments Ret {A} a.
Arguments Fault {A}.

Definition bind {A B : Type} (m : res A) (f : A -> res B) : res B :=
  match m with
  | Ret a => f a
  | Fault => Fault
  end.

Notation "x <~ m ;; k" := (bind m (fun x => k))
  (at level 100, m at level 99, k at level 200, right associativity).

(** ** Characters *)

(** The value of a [char] as the [int] the classifiers receive. *)
Definition char_to_int (c : byte) : Z := Z.of_N (Byte.to_N c).

Definition is_nul (c : byte) : bool := char_to_int c =? 0.

(** The classifiers of <ctype.h>.  The program never calls setlocale, so
    they are those of the "C" locale, which ISO C fixes: the uppercase
    letters are A to Z, the lowercase letters a to z, the digits 0 to 9 (in
    ASCII, the character set of the string literals here), and no byte above
    127 is in any class. *)
Definition isupper (c : Z) : bool := (65 <=? c) && (c <=? 90).
Definition islower (c : Z) : bool := (97 <=? c) && (c <=? 122).
Definition isdigit (c : Z) : bool := (48 <=? c) && (c <=? 57).
Definition isalpha (c : Z) : bool := isupper c || islower c.
Definition isalnum (c : Z) : bool := isalpha c || isdigit c.
Definition tolower (c : Z) : Z := if isupper c then c + 32 else c.

(** ** Strings in memory *)

Definition INT_MAX : Z := 2147483647.
Definition SIZE_MODULUS : Z := 2 ^ 64.

(** [a - b] on two [size_t]. *)
Definition size_sub (a b : Z) : Z := (a - b) mod SIZE_MODULUS.

(** [strlen(s)]: the bytes before the first NUL. *)
Fixpoint strlen (s : list byte) : Z :=
  match s with
  | [] => 0
  | c :: s' => if is_nul c then 0 else 1 + strlen s'
  end.

(** The string a pointer denotes: what is stored before the first NUL. *)
Fixpoint c_str (s : list byte) : list byte :=
  match s with
  | [] => []
  | c :: s' => if is_nul c then [] else c :: c_str s'
  end.

(** [s[i]]: a byte of the list, the terminator behind it, or an access
    outside the object. *)
Definition char_at (s : list byte) (i : Z) : res byte :=
  if i <? 0 then Fault
  else match s !! Z.to_nat i with
       | Some c => Ret c
       | None => if i =? Z.of_nat (length s) then Ret x00 else Fault
       end.

(** [buf[i] = c]: inside the buffer, or a fault. *)
Definition store (buf : list byte) (i : Z) (c : byte) : res (list byte) :=
  if (0 <=? i) && (i <? Z.of_nat (length buf))
  then Ret (<[Z.to_nat i := c]> buf)
  else Fault.

(** ** The predicates *)

(** [containsString]: the pointer walks the string, [consecutiveLetters]
    counts the letters of the current run. *)
Fixpoint containsString_loop (consecutiveLetters : Z) (pwd : list byte) : bool :=
  match pwd with
  | [] => false
  | c :: pwd' =>
      if is_nul c then false
      else if isalpha (char_to_int c)
           then let consecutiveLetters := consecutiveLetters + 1 in
                if 4 <=? consecutiveLetters then true
                else containsString_loop consecutiveLetters pwd'
           else containsString_loop 0 pwd'
  end.

Definition containsString (pwd : list byte) : bool :=
  containsString_loop 0 pwd.

Fixpoint hasUpper (pwd : list byte) : bool :=
  match pwd with
  | [] => false
  | c :: pwd' =>
      if is_nul c then false
      else if isupper (char_to_int c) then true
           else hasUpper pwd'
  end.

Fixpoint hasDigit (pwd : list byte) : bool :=
  match pwd with
  | [] => false
  | c :: pwd' =>
      if is_nul c then false
      else if isdigit (char_to_int c) then true
           else hasDigit pwd'
  end.

Fixpoint hasLower (pwd : list byte) : bool :=
  match pwd with
  | [] => false
  | c :: pwd' =>
      if is_nul c then false
      else if islower (char_to_int c) then true
           else hasLower pwd'
  end.

Definition hasMinimumLength (pwd : list byte) : bool :=
  8 <=? strlen pwd.

Fixpoint isAlphanumericOnly (pwd : list byte) : bool :=
  match pwd with
  | [] => true
  | c :: pwd' =>
      if is_nul c then true
      else if negb (isalnum (char_to_int c)) then false
           else isAlphanumericOnly pwd'
  end.

(** The inner loop of [containsUsername] at offset [i]: [n] is the number of
    iterations the test [j < strlen(username)] still lets through; the
    result is [j] when the loop is left. *)
Fixpoint containsUsername_inner (n : nat) (username password : list byte)
    (i j : Z) : res Z :=
  match n with
  | O => Ret j
  | S n' =>
      pc <~ char_at password (i + j) ;;
      uc <~ char_at username j ;;
      if negb (tolower (char_to_int pc) =? tolower (char_to_int uc))
      then Ret j
      else containsUsername_inner n' username password i (j + 1)
  end.

(** The outer loop: [n] is the number of offsets the test
    [i <= strlen(password) - strlen(username)] still lets through. *)
Fixpoint containsUsername_outer (n : nat) (username password : list byte)
    (i : Z) : res bool :=
  match n with
  | O => Ret false
  | S n' =>
      j <~ containsUsername_inner (Z.to_nat (strlen username))
             username password i 0 ;;
      if j =? strlen username then Ret true
      else containsUsername_outer n' username password (i + 1)
  end.

Definition containsUsername (username password : list byte) : res bool :=
  if strlen username =? 0 then Ret false
  else
    let last := size_sub (strlen password) (strlen username) in
    containsUsername_outer (Z.to_nat (last + 1)) username password 0.

(** ** The two policies *)

Definition isStrongPassword (username password : list byte) : res bool :=
  if negb (hasMinimumLength password) then Ret false
  else if negb (hasUpper password) || negb (hasLower password)
          || negb (hasDigit password) then Ret false
  else if negb (isAlphanumericOnly password) then Ret false
  else if negb (containsString password) then Ret false
  else
    found <~ containsUsername username password ;;
    if found then Ret false else Ret true.

Definition isStrongDefaultPassword (username password : list byte) : bool :=
  if 15 <? strlen password then false
  else if negb (hasUpper password) || negb (hasLower password)
          || negb (hasDigit password) then false
  else if negb (isAlphanumericOnly password) then false
  else true.

(** A string literal as the bytes of a C string. *)
Definition lit (s : string) : list byte := list_byte_of_string s.

(** ** The generator *)

Definition validCharacters : list byte :=
  lit "abcdefghijklmnopqrstuvwxyzABCDEFGHIJKLMNOPQRSTUVWXYZ0123456789".

Definition numValidChars : Z := strlen validCharacters.

Section Generator.

(** The values [rand()] returns, in the order of the calls. *)
Variable rand : nat -> Z.

(** The loop that fills the first [passwordLength] bytes of the buffer;
    [n] is the number of iterations left, [calls] the number of calls of
    [rand()] made so far. *)
Fixpoint fill_password (n : nat) (calls : nat) (default_password : list byte)
    (i : Z) : res (list byte * nat) :=
  match n with
  | O => Ret (default_password, calls)
  | S n' =>
      c <~ char_at validCharacters (Z.rem (rand calls) numValidChars) ;;
      buf <~ store default_password i c ;;
      fill_password n' (S calls) buf (i + 1)
  end.

(** One round of the do-while loop: a length, the characters, the
    terminator. *)
Definition generate_candidate (calls : nat) (default_password : list byte)
    : res (list byte * nat) :=
  let passwordLength := Z.rem (rand calls) 15 + 1 in
  r <~ fill_password (Z.to_nat passwordLength) (S calls) default_password 0 ;;
  buf <~ store (fst r) passwordLength x00 ;;
  Ret (buf, snd r).

(** The do-while loop has no bound in the source: [fuel] rounds are
    followed, [None] says that all of them were rejected. *)
Fixpoint generateDefaultPassword_loop (fuel : nat) (calls : nat)
    (default_password username : list byte) : option (res (list byte)) :=
  match fuel with
  | O => None
  | S fuel' =>
      match generate_candidate calls default_password with
      | Fault => Some Fault
      | Ret (buf, calls') =>
          if negb (isStrongDefaultPassword username buf)
          then generateDefaultPassword_loop fuel' calls' buf username
          else Some (Ret buf)
      end
  end.

(** [generateDefaultPassword(default_password, username)]: the buffer the
    caller passes comes back with the password in it. *)
Definition generateDefaultPassword (fuel : nat)
    (default_password username : list byte) : option (res (list byte)) :=
  generateDefaultPassword_loop fuel 0%nat default_password username.

End Generator.

(** ** The terminal *)

(** What is left to read on the standard input, and what has been written
    on the standard output. *)
Record world : Type := World { stdin : list byte; stdout : list byte }.

(** [printf] of a text without conversions. *)
Definition printf (text : list byte) (w : world) : world :=
  World (stdin w) (stdout w ++ text).

(** [printf] of a text, the string at a pointer, and a line feed: the
    formats ["...%s\n"] of the program. *)
Definition printf_s (text s : list byte) (w : world) : world :=
  World (stdin w) (stdout w ++ text ++ c_str s ++ [x0a]).

(** A text and its line feed. *)
Definition line (s : string) : list byte := lit s ++ [x0a].

(** [isspace] in the "C" locale: the space and the controls 9 to 13. *)
Definition isspace (c : Z) : bool := (c =? 32) || ((9 <=? c) && (c <=? 13)).

(** The white space a [%s] conversion skips first. *)
Fixpoint skip_space (input : list byte) : list byte :=
  match input with
  | [] => []
  | c :: rest => if isspace (char_to_int c) then skip_space rest else input
  end.

(** The characters a [%s] conversion matches, up to white space or the end
    of the input, and what it leaves. *)
Fixpoint read_word (input : list byte) : list byte * list byte :=
  match input with
  | [] => ([], [])
  | c :: rest =>
      if isspace (char_to_int c) then ([], input)
      else let (word, rest') := read_word rest in (c :: word, rest')
  end.

(** The characters of a word and the terminator, written from index [i]
    on. *)
Fixpoint store_string (buf : list byte) (i : Z) (word : list byte)
    : res (list byte) :=
  match word with
  | [] => store buf i x00
  | c :: word' => buf' <~ store buf i c ;; store_string buf' (i + 1) word'
  end.

(** [scanf("%s", buf)]: at the end of the input nothing is stored; a word is
    stored whole, whatever the size of the buffer.  The program does not
    look at the value [scanf] returns. *)
Definition scanf_s (buf : list byte) (w : world) : res (list byte * world) :=
  match skip_space (stdin w) with
  | [] => Ret (buf, World [] (stdout w))
  | input =>
      let (word, rest) := read_word input in
      buf' <~ store_string buf 0 word ;;
      Ret (buf', World rest (stdout w))
  end.

(** [strcmp]: the difference of the first two bytes that differ; C fixes
    only its sign, and the program only tests it against 0. *)
Fixpoint strcmp (a b : list byte) : Z :=
  match a, b with
  | [], [] => 0
  | [], d :: _ => 0 - char_to_int d
  | c :: _, [] => char_to_int c
  | c :: a', d :: b' =>
      if char_to_int c =? char_to_int d
      then if is_nul c then 0 else strcmp a' b'
      else char_to_int c - char_to_int d
  end.

(** ** The dialogue *)

Definition promptForNewPassword (customPassword username : list byte)
    (w : world) : res (bool * list byte * world) :=
  let w := printf (lit "Enter new password: ") w in
  r <~ scanf_s customPassword w ;;
  let (customPassword, w) := r in
  strong <~ isStrongPassword username customPassword ;;
  if strong
  then Ret (true, customPassword, printf (line "Strong password!") w)
  else Ret (false, customPassword,
            printf (line "Your password is weak. Try again!") w).

(** The loop of [main] that prompts until a password is accepted; it has
    no bound in the source, [fuel] rounds are followed. *)
Fixpoint prompt_until_strong (fuel : nat) (customPassword username : list byte)
    (w : world) : option (res (list byte * world)) :=
  match fuel with
  | O => None
  | S fuel' =>
      match promptForNewPassword customPassword username w with
      | Fault => Some Fault
      | Ret (accepted, customPassword, w) =>
          if negb accepted
          then prompt_until_strong fuel' customPassword username w
          else Some (Ret (customPassword, w))
      end
  end.

(** [main]: the four arrays come with whatever bytes they hold at the
    start; [fuel] bounds each of the two loops that have no bound in the
    source; the result is the exit status. *)
Definition main (rand : nat -> Z) (fuel : nat)
    (username default_password customPassword choice : list byte)
    (w : world) : option (res (Z * world)) :=
  let w := printf (lit "Enter username: ") w in
  match scanf_s username w with
  | Fault => Some Fault
  | Ret (username, w) =>
      match generateDefaultPassword rand fuel default_password username with
      | None => None
      | Some Fault => Some Fault
      | Some (Ret default_password) =>
          let w := printf (line "Generating a default password...") w in
          let w := printf_s (lit "Generated default password: ")
                     default_password w in
          let w := printf (lit "Manually change password? (y/n): ") w in
          match scanf_s choice w with
          | Fault => Some Fault
          | Ret (choice, w) =>
              if (strcmp choice (lit "y") =? 0)
                 || (strcmp choice (lit "Y") =? 0)
              then
                match prompt_until_strong fuel customPassword username w with
                | None => None
                | Some Fault => Some Fault
                | Some (Ret (customPassword, w)) =>
                    Some (Ret (0, printf_s
                                    (lit "Successfully created password: ")
                                    customPassword w))
                end
              else
                Some (Ret (0, printf
                                (line "You chose not to change your password.")
                                w))
          end
      end
  end.

(** ** What the claims say, on the string itself *)

Definition upper_letter (c : byte) : Prop := 65 <= char_to_int c <= 90.
Definition lower_letter (c : byte) : Prop := 97 <= char_to_int c <= 122.
Definition digit (c : byte) : Prop := 48 <= char_to_int c <= 57.
Definition letter (c : byte) : Prop := upper_letter c \/ lower_letter c.
Definition alphanumeric (c : byte) : Prop := letter c \/ digit c.

(** A contiguous run of at least [k] letters. *)
Definition letter_run (k : nat) (s : list byte) : Prop :=
  exists pre run post,
    s = pre ++ run ++ post /\ (k <= length run)%nat /\ Forall letter run.

(** A string folded to lower case. *)
Definition fold_case (s : list byte) : list Z :=
  map (fun c => tolower (char_to_int c)) s.

(** [u] occurs in [s], the case of letters apart. *)
Definition occurs_ci (u s : list byte) : Prop :=
  exists pre w post, s = pre ++ w ++ post /\ fold_case w = fold_case u.

(** The window of the password at offset [i] reads as the username. *)
Definition window_at (u s : list byte) (i : nat) : Prop :=
  forall t : nat, (t < length u)%nat ->
    fold_case s !! (i + t)%nat = fold_case u !! t.

(** The six checks of the strong policy that look at the password alone. *)
Definition strong_checks (p : list byte) : Prop :=
  8 <= strlen p /\ Exists upper_letter (c_str p) /\ Exists lower_letter (c_str p)
  /\ Exists digit (c_str p) /\ Forall alphanumeric (c_str p)
  /\ letter_run 4 (c_str p).

(** The default policy on the string. *)
Definition default_policy (p : list byte) : Prop :=
  strlen p <= 15 /\ Exists upper_letter (c_str p) /\ Exists lower_letter (c_str p)
  /\ Exists digit (c_str p) /\ Forall alphanumeric (c_str p).

(** A sequence of random numbers for the examples: 7, 44, 81, ... *)
Definition rand_example (k : nat) : Z := 7 + 37 * Z.of_nat k.

(** Random numbers that draw a length of one and the character 'Y' in
    turn: 0, 50, 0, 50, ... *)
Definition rand_alternate (k : nat) : Z := if Nat.even k then 0 else 50.

(** The call of [rand()] that draws the length in round [r] of the
    do-while loop: each round calls [rand()] once for the length and once
    for each of the characters. *)
Fixpoint length_call (rand : nat -> Z) (r : nat) : nat :=
  match r with
  | O => O
  | S r' =>
      let calls := length_call rand r' in
      (S calls + Z.to_nat (Z.rem (rand calls) 15 + 1))%nat
  end.

(** ** Characters and classes *)

Lemma char_to_int_range (c : byte) : 0 <= char_to_int c <= 255.
Proof.
  unfold char_to_int. pose proof (Byte.to_N_bounded c). lia.
Qed.

Lemma is_nul_true (c : byte) : is_nul c = true <-> c = x00.
Proof.
  unfold is_nul, char_to_int. rewrite Z.eqb_eq. split.
  - intros H. assert (E : Byte.to_N c = 0%N) by lia.
    pose proof (Byte.of_to_N c) as O. rewrite E in O. simpl in O. congruence.
  - intros ->. reflexivity.
Qed.

Lemma isupper_spec (c : byte) : isupper (char_to_int c) = true <-> upper_letter c.
Proof. unfold isupper, upper_letter. rewrite andb_true_iff, !Z.leb_le. tauto. Qed.

Lemma islower_spec (c : byte) : islower (char_to_int c) = true <-> lower_letter c.
Proof. unfold islower, lower_letter. rewrite andb_true_iff, !Z.leb_le. tauto. Qed.

Lemma isdigit_spec (c : byte) : isdigit (char_to_int c) = true <-> digit c.
Proof. unfold isdigit, digit. rewrite andb_true_iff, !Z.leb_le. tauto. Qed.

Lemma isalpha_spec (c : byte) : isalpha (char_to_int c) = true <-> letter c.
Proof.
  unfold isalpha, letter. rewrite orb_true_iff, isupper_spec, islower_spec. tauto.
Qed.

Lemma isalnum_spec (c : byte) : isalnum (char_to_int c) = true <-> alphanumeric c.
Proof.
  unfold isalnum, alphanumeric. rewrite orb_true_iff, isalpha_spec, isdigit_spec. tauto.
Qed.

Lemma alphanumeric_not_nul (c : byte) : alphanumeric c -> is_nul c = false.
Proof.
  unfold alphanumeric, letter, upper_letter, lower_letter, digit, is_nul.
  intros H. apply Z.eqb_neq. lia.
Qed.

Lemma tolower_zero (c : Z) : tolower c = 0 <-> c = 0.
Proof.
  unfold tolower, isupper.
  destruct (65 <=? c) eqn:A; destruct (c <=? 90) eqn:B; simpl; lia.
Qed.

(** ** Lengths and the string a buffer holds *)

Lemma strlen_c_str (s : list byte) : strlen s = Z.of_nat (length (c_str s)).
Proof.
  induction s as [|c s IH]; simpl; [reflexivity|].
  destruct (is_nul c); simpl; lia.
Qed.

Lemma strlen_nonneg (s : list byte) : 0 <= strlen s.
Proof. rewrite strlen_c_str. lia. Qed.

Lemma strlen_le_length (s : list byte) : strlen s <= Z.of_nat (length s).
Proof.
  induction s as [|c s IH]; simpl; [lia|].
  destruct (is_nul c); lia.
Qed.

Lemma c_str_no_nul (s : list byte) : Forall (fun c => is_nul c = false) (c_str s).
Proof.
  induction s as [|c s IH]; simpl; [constructor|].
  destruct (is_nul c) eqn:E; constructor; assumption.
Qed.

Lemma c_str_id (s : list byte) :
  Forall (fun c => is_nul c = false) s -> c_str s = s.
Proof.
  induction 1 as [|c s Hc _ IH]; simpl; [reflexivity|].
  rewrite Hc, IH. reflexivity.
Qed.

Lemma c_str_idemp (s : list byte) : c_str (c_str s) = c_str s.
Proof. apply c_str_id, c_str_no_nul. Qed.

Lemma c_str_terminated (chars rest : list byte) :
  Forall (fun c => is_nul c = false) chars ->
  c_str (chars ++ x00 :: rest) = chars.
Proof.
  induction 1 as [|c chars Hc _ IH]; simpl; [reflexivity|].
  rewrite Hc, IH. reflexivity.
Qed.

(** ** The scans of one class *)

Lemma hasUpper_spec (pwd : list byte) :
  hasUpper pwd = true <-> Exists upper_letter (c_str pwd).
Proof.
  induction pwd as [|c s IH]; simpl.
  - rewrite Exists_nil. split; [discriminate|tauto].
  - destruct (is_nul c).
    + rewrite Exists_nil. split; [discriminate|tauto].
    + rewrite Exists_cons, <- IH, <- isupper_spec.
      destruct (isupper (char_to_int c)); intuition discriminate.
Qed.

Lemma hasLower_spec (pwd : list byte) :
  hasLower pwd = true <-> Exists lower_letter (c_str pwd).
Proof.
  induction pwd as [|c s IH]; simpl.
  - rewrite Exists_nil. split; [discriminate|tauto].
  - destruct (is_nul c).
    + rewrite Exists_nil. split; [discriminate|tauto].
    + rewrite Exists_cons, <- IH, <- islower_spec.
      destruct (islower (char_to_int c)); intuition discriminate.
Qed.

Lemma hasDigit_spec (pwd : list byte) :
  hasDigit pwd = true <-> Exists digit (c_str pwd).
Proof.
  induction pwd as [|c s IH]; simpl.
  - rewrite Exists_nil. split; [discriminate|tauto].
  - destruct (is_nul c).
    + rewrite Exists_nil. split; [discriminate|tauto].
    + rewrite Exists_cons, <- IH, <- isdigit_spec.
      destruct (isdigit (char_to_int c)); intuition discriminate.
Qed.

Lemma isAlphanumericOnly_spec (pwd : list byte) :
  isAlphanumericOnly pwd = true <-> Forall alphanumeric (c_str pwd).
Proof.
  induction pwd as [|c s IH]; simpl.
  - split; [constructor|reflexivity].
  - destruct (is_nul c).
    + split; [constructor|reflexivity].
    + rewrite Forall_cons, <- IH, <- isalnum_spec.
      destruct (isalnum (char_to_int c)); simpl; intuition discriminate.
Qed.

Lemma hasMinimumLength_spec (pwd : list byte) :
  hasMinimumLength pwd = true <-> 8 <= strlen pwd.
Proof. unfold hasMinimumLength. apply Z.leb_le. Qed.

(** ** Runs of letters *)

(** The loop with [n] letters counted so far: it answers true when the run
    in progress reaches four letters, or a later run has four. *)
Lemma containsString_loop_spec (pwd : list byte) : forall n : Z,
  0 <= n < 4 ->
  containsString_loop n pwd = true <->
  (exists run rest, c_str pwd = run ++ rest /\ Forall letter run /\
                    4 <= n + Z.of_nat (length run))
  \/ letter_run 4 (c_str pwd).
Proof.
  assert (no_run : forall (n : Z), 0 <= n < 4 ->
            ~ ((exists run rest : list byte, [] = run ++ rest /\ Forall letter run /\
                    4 <= n + Z.of_nat (length run)) \/ letter_run 4 [])).
  { intros n Hn [(run & rest & E & _ & L) | (pre & run & post & E & L & _)].
    - symmetry in E. apply app_eq_nil in E as [-> _]. simpl in L. lia.
    - symmetry in E. apply app_eq_nil in E as [_ E].
      apply app_eq_nil in E as [-> _]. simpl in L. lia. }
  induction pwd as [|c s IH]; intros n Hn; simpl.
  - split; [discriminate|]. intros H. destruct (no_run n Hn H).
  - destruct (is_nul c) eqn:Hnul.
    { split; [discriminate|]. intros H. destruct (no_run n Hn H). }
    destruct (isalpha (char_to_int c)) eqn:Hc.
    + apply isalpha_spec in Hc.
      destruct (4 <=? n + 1) eqn:H4.
      * apply Z.leb_le in H4. split; [intros _|reflexivity].
        left. exists [c], (c_str s). simpl. repeat split; [|lia].
        constructor; [assumption|constructor].
      * apply Z.leb_gt in H4. rewrite IH by lia. split.
        -- intros [(run & rest & E & F & L) | (pre & run & post & E & L & F)].
           ++ left. exists (c :: run), rest. rewrite E. simpl.
              repeat split; [constructor; assumption|lia].
           ++ right. exists (c :: pre), run, post. rewrite E. auto.
        -- intros [(run & rest & E & F & L) | (pre & run & post & E & L & F)].
           ++ destruct run as [|c' run]; simpl in *; [lia|].
              injection E as <- E. left. exists run, rest.
              repeat split; [assumption| |lia].
              inversion F; assumption.
           ++ destruct pre as [|c' pre]; simpl in E.
              ** destruct run as [|c' run]; simpl in *; [lia|].
                 injection E as <- E. left. exists run, post.
                 repeat split; [assumption| |lia].
                 inversion F; assumption.
              ** injection E as <- E. right. exists pre, run, post. auto.
    + assert (Hnot : ~ letter c).
      { intros L. apply isalpha_spec in L. congruence. }
      rewrite IH by lia. split.
      * intros [(run & rest & E & F & L) | (pre & run & post & E & L & F)].
        -- right. exists [c], run, rest. rewrite E. simpl.
           repeat split; [lia|assumption].
        -- right. exists (c :: pre), run, post. rewrite E. auto.
      * intros [(run & rest & E & F & L) | (pre & run & post & E & L & F)].
        -- destruct run as [|c' run]; simpl in *; [lia|].
           injection E as <- E. inversion F; tauto.
        -- destruct pre as [|c' pre]; simpl in E.
           ++ destruct run as [|c' run]; simpl in *; [lia|].
              injection E as <- E. inversion F; tauto.
           ++ injection E as <- E. right. exists pre, run, post. auto.
Qed.

Lemma containsString_spec (pwd : list byte) :
  containsString pwd = true <-> letter_run 4 (c_str pwd).
Proof.
  unfold containsString. rewrite containsString_loop_spec by lia. split.
  - intros [(run & rest & E & F & L) | H]; [|assumption].
    exists [], run, rest. simpl. repeat split; [assumption|lia|assumption].
  - tauto.
Qed.

(** ** Reading a string through an index *)

Lemma char_at_cons (c : byte) (s : list byte) (t : Z) :
  0 < t -> char_at (c :: s) t = char_at s (t - 1).
Proof.
  intros Ht. unfold char_at.
  replace (Z.to_nat t) with (S (Z.to_nat (t - 1))) by lia.
  destruct (t <? 0) eqn:A; [lia|]. destruct (t - 1 <? 0) eqn:B; [lia|].
  rewrite lookup_cons. destruct (s !! Z.to_nat (t - 1)); [reflexivity|].
  rewrite length_cons.
  destruct (Z.eqb_spec t (Z.of_nat (S (length s))));
    destruct (Z.eqb_spec (t - 1) (Z.of_nat (length s))); try reflexivity; lia.
Qed.

(** Below [strlen] a read gives the byte of the string. *)
Lemma char_at_string (s : list byte) : forall t : nat,
  (t < length (c_str s))%nat ->
  exists c, c_str s !! t = Some c /\ char_at s (Z.of_nat t) = Ret c.
Proof.
  induction s as [|c s IH]; intros t Ht; simpl in *; [lia|].
  destruct (is_nul c) eqn:Hnul; simpl in *; [lia|].
  destruct t as [|t].
  - exists c. split; reflexivity.
  - destruct (IH t) as (d & L & R); [lia|].
    exists d. split; [assumption|].
    rewrite char_at_cons by lia. rewrite <- R. f_equal. lia.
Qed.

(** At [strlen] a read gives the terminator. *)
Lemma char_at_strlen (s : list byte) : char_at s (strlen s) = Ret x00.
Proof.
  induction s as [|c s IH]; simpl; [reflexivity|].
  destruct (is_nul c) eqn:Hnul.
  - apply is_nul_true in Hnul. subst c. reflexivity.
  - pose proof (strlen_nonneg s).
    rewrite char_at_cons by lia. rewrite <- IH. f_equal. lia.
Qed.

(** Past the terminator that follows the bytes a read leaves the object. *)
Lemma char_at_outside (s : list byte) (t : Z) :
  Z.of_nat (length s) < t -> char_at s t = Fault.
Proof.
  intros Ht. unfold char_at. destruct (t <? 0) eqn:A; [reflexivity|].
  rewrite lookup_ge_None_2 by lia.
  destruct (t =? Z.of_nat (length s)) eqn:B; [lia|reflexivity].
Qed.

Lemma fold_case_lookup (s : list byte) (t : nat) (c : byte) :
  s !! t = Some c -> fold_case s !! t = Some (tolower (char_to_int c)).
Proof. intros H. unfold fold_case. rewrite list_lookup_fmap, H. reflexivity. Qed.

Lemma length_fold_case (s : list byte) : length (fold_case s) = length s.
Proof. unfold fold_case. apply length_map. Qed.

(** ** The search for the username *)

Lemma occurs_ci_window (u s : list byte) :
  occurs_ci u s <->
  exists i : nat, (i + length u <= length s)%nat /\ window_at u s i.
Proof.
  split.
  - intros (pre & w & post & -> & E).
    assert (L : length w = length u).
    { rewrite <- (length_fold_case w), E. apply length_fold_case. }
    exists (length pre). split.
    + rewrite !length_app. lia.
    + intros t Ht. rewrite <- E. unfold fold_case.
      rewrite !fmap_app, lookup_app_r by (rewrite length_fmap; lia).
      rewrite length_fmap.
      replace (length pre + t - length pre)%nat with t by lia.
      apply lookup_app_l. rewrite length_fmap. lia.
  - intros (i & Hi & W).
    exists (take i s), (take (length u) (drop i s)), (drop (i + length u) s).
    split.
    + rewrite <- drop_drop, (take_drop (length u) (drop i s)), take_drop.
      reflexivity.
    + apply list_eq. intros t.
      destruct (decide (t < length u)%nat) as [Ht|Ht].
      * rewrite <- (W t Ht). unfold fold_case.
        rewrite !list_lookup_fmap, lookup_take_lt, lookup_drop by lia.
        reflexivity.
      * rewrite !lookup_ge_None_2; [reflexivity| |].
        -- rewrite length_fold_case. lia.
        -- rewrite length_fold_case, length_take. lia.
Qed.

Section Search.

Variables username password : list byte.

Let u := c_str username.
Let s := c_str password.

(** The inner loop at an offset where the window lies inside the
    password: it runs to the end of the username exactly when the rest of
    the window matches. *)
Lemma containsUsername_inner_fits (i : nat) :
  (i + length u <= length s)%nat ->
  forall (n j : nat), (j + n = length u)%nat ->
  exists j' : Z,
    containsUsername_inner n username password (Z.of_nat i) (Z.of_nat j)
      = Ret j'
    /\ (j' = Z.of_nat (length u) <->
        forall t : nat, (j <= t < length u)%nat ->
          fold_case s !! (i + t)%nat = fold_case u !! t).
Proof.
  intros Hi. induction n as [|n IH]; intros j Hj; simpl.
  - exists (Z.of_nat j). split; [reflexivity|].
    split; [intros _ t Ht; lia|intros _; lia].
  - destruct (char_at_string password (i + j)) as (a & La & Ra);
      [fold s; lia|].
    destruct (char_at_string username j) as (b & Lb & Rb); [fold u; lia|].
    fold s in La. fold u in Lb.
    replace (Z.of_nat i + Z.of_nat j) with (Z.of_nat (i + j)) by lia.
    rewrite Ra, Rb. simpl.
    apply fold_case_lookup in La, Lb.
    destruct (Z.eqb_spec (tolower (char_to_int a)) (tolower (char_to_int b)))
      as [E|E]; simpl.
    + destruct (IH (S j)) as (j' & R & W); [lia|].
      replace (Z.of_nat j + 1) with (Z.of_nat (S j)) by lia.
      exists j'. split; [assumption|]. rewrite W. split.
      * intros H t Ht. destruct (decide (t = j)) as [->|Hne].
        -- rewrite La, Lb, E. reflexivity.
        -- apply H. lia.
      * intros H t Ht. apply H. lia.
    + exists (Z.of_nat j). split; [reflexivity|]. split; [lia|].
      intros H. specialize (H j). rewrite La, Lb in H.
      assert (Some (tolower (char_to_int a)) = Some (tolower (char_to_int b)))
        as [= ?] by (apply H; lia).
      contradiction.
Qed.

(** The outer loop over offsets at which the window lies inside the
    password. *)
Lemma containsUsername_outer_fits : forall (n i : nat),
  (i + n + length u <= length s + 1)%nat ->
  exists b : bool,
    containsUsername_outer n username password (Z.of_nat i) = Ret b
    /\ (b = true <->
        exists i' : nat, (i <= i' < i + n)%nat /\ window_at u s i').
Proof.
  induction n as [|n IH]; intros i Hi; simpl.
  - exists false. split; [reflexivity|].
    split; [discriminate|]. intros (i' & Hi' & _). lia.
  - rewrite strlen_c_str, Nat2Z.id. fold u.
    destruct (containsUsername_inner_fits i ltac:(lia) (length u) 0%nat
                ltac:(lia)) as (j' & R & W).
    change (Z.of_nat 0) with 0 in R. rewrite R. simpl.
    destruct (Z.eqb_spec j' (Z.of_nat (length u))) as [E|E].
    + exists true. split; [reflexivity|]. split; [intros _|reflexivity].
      exists i. split; [lia|]. intros t Ht. apply W; [assumption|lia].
    + destruct (IH (S i)) as (b & Rb & Wb); [lia|].
      replace (Z.of_nat i + 1) with (Z.of_nat (S i)) by lia.
      exists b. split; [assumption|]. rewrite Wb. split.
      * intros (i' & Hi' & Hw). exists i'. split; [lia|assumption].
      * intros (i' & Hi' & Hw). destruct (decide (i' = i)) as [->|Hne].
        -- exfalso. apply E, W. intros t Ht. apply Hw. lia.
        -- exists i'. split; [lia|assumption].
Qed.

(** When the username is not longer than the password the search stays
    inside both strings, and finds the username exactly when it is not
    empty and occurs in the password. *)
Lemma containsUsername_fits :
  strlen username <= strlen password -> strlen password < SIZE_MODULUS ->
  exists b : bool,
    containsUsername username password = Ret b
    /\ (b = true <-> u <> [] /\ occurs_ci u s).
Proof.
  intros Hle Hsz. unfold containsUsername.
  rewrite !strlen_c_str in *. fold u s in Hle, Hsz |- *.
  destruct (Z.eqb_spec (Z.of_nat (length u)) 0) as [E|E].
  - exists false. split; [reflexivity|]. split; [discriminate|].
    intros [H _]. destruct u; [congruence|simpl in E; lia].
  - unfold size_sub. rewrite Z.mod_small by lia.
    replace (Z.to_nat (Z.of_nat (length s) - Z.of_nat (length u) + 1))
      with (length s - length u + 1)%nat by lia.
    destruct (containsUsername_outer_fits (length s - length u + 1) 0)
      as (b & R & W); [lia|].
    change (Z.of_nat 0) with 0 in R. exists b. split; [assumption|].
    rewrite W, occurs_ci_window. split.
    + intros (i & Hi & Hw). split.
      * intros H. rewrite H in E. simpl in E. lia.
      * exists i. split; [lia|assumption].
    + intros (_ & i & Hi & Hw). exists i. split; [lia|assumption].
Qed.

End Search.

Section Underflow.

Variables username password : list byte.

(** The password is a string with nothing stored behind its terminator,
    and the username is longer. *)
Hypothesis password_exact : strlen password = Z.of_nat (length password).
Hypothesis username_longer : strlen password < strlen username.

(** A window that starts inside the password stops matching at the
    terminator at the latest, before the username ends. *)
Lemma containsUsername_inner_short (i : nat) : forall (n j : nat),
  (i + j <= length password)%nat ->
  (j + n = length (c_str username))%nat ->
  exists j' : Z,
    containsUsername_inner n username password (Z.of_nat i) (Z.of_nat j)
      = Ret j'
    /\ j' < strlen username.
Proof.
  pose proof password_exact as Hp. pose proof username_longer as Hu.
  rewrite (strlen_c_str username) in *.
  rewrite (strlen_c_str password) in Hp.
  induction n as [|n IH]; intros j Hij Hj; simpl.
  - lia.
  - destruct (char_at_string username j) as (b & Lb & Rb); [lia|].
    assert (Hb : is_nul b = false).
    { pose proof (c_str_no_nul username) as F.
      rewrite Forall_lookup in F. exact (F _ _ Lb). }
    replace (Z.of_nat i + Z.of_nat j) with (Z.of_nat (i + j)) by lia.
    destruct (decide (i + j = length password)%nat) as [E|E].
    + replace (Z.of_nat (i + j)) with (strlen password)
        by (rewrite password_exact; lia).
      rewrite char_at_strlen, Rb. cbn [bind].
      destruct (Z.eqb_spec (tolower (char_to_int x00))
                  (tolower (char_to_int b))) as [T|T]; cbn [negb].
      * exfalso. symmetry in T. change (tolower (char_to_int x00)) with 0 in T.
        apply -> tolower_zero in T. unfold is_nul in Hb.
        apply Z.eqb_neq in Hb. contradiction.
      * exists (Z.of_nat j). split; [reflexivity|lia].
    + destruct (char_at_string password (i + j)) as (a & La & Ra); [lia|].
      rewrite Ra, Rb. simpl.
      destruct (tolower (char_to_int a) =? tolower (char_to_int b)); simpl.
      * replace (Z.of_nat j + 1) with (Z.of_nat (S j)) by lia.
        apply IH; lia.
      * exists (Z.of_nat j). split; [reflexivity|lia].
Qed.

(** The offsets run past the end of the password: the first read behind
    the terminator is outside the string. *)
Lemma containsUsername_outer_overrun : forall (n i : nat),
  (i <= length password + 1)%nat -> (length password + 2 <= i + n)%nat ->
  containsUsername_outer n username password (Z.of_nat i) = Fault.
Proof.
  pose proof password_exact as Hp. pose proof username_longer as Hu.
  pose proof (strlen_nonneg password) as Hp0.
  induction n as [|n IH]; intros i Hi Hn; simpl; [lia|].
  destruct (decide (i = length password + 1)%nat) as [E|E].
  - destruct (Z.to_nat (strlen username)) as [|k] eqn:K; [lia|]. simpl.
    rewrite char_at_outside by lia. reflexivity.
  - destruct (containsUsername_inner_short i (Z.to_nat (strlen username)) 0)
      as (j' & R & Hj'); [lia|rewrite strlen_c_str; lia|].
    change (Z.of_nat 0) with 0 in R. rewrite R. simpl.
    destruct (Z.eqb_spec j' (strlen username)); [lia|].
    replace (Z.of_nat i + 1) with (Z.of_nat (S i)) by lia.
    apply IH; lia.
Qed.

(** With a username longer than the password the unsigned difference
    wraps around, and the search reads outside the password. *)
Lemma containsUsername_underflow :
  strlen username < SIZE_MODULUS ->
  containsUsername username password = Fault.
Proof.
  intros Hsz.
  pose proof password_exact as Hp. pose proof username_longer as Hu.
  pose proof (strlen_nonneg password) as Hp0.
  unfold containsUsername.
  destruct (Z.eqb_spec (strlen username) 0); [lia|].
  assert (W : size_sub (strlen password) (strlen username)
              = strlen password - strlen username + SIZE_MODULUS).
  { unfold size_sub.
    rewrite <- (Z.mod_add _ 1 SIZE_MODULUS) by (unfold SIZE_MODULUS; lia).
    rewrite Z.mod_small; unfold SIZE_MODULUS in *; lia. }
  rewrite W. apply (containsUsername_outer_overrun _ 0%nat); [lia|].
  unfold SIZE_MODULUS in *. lia.
Qed.

End Underflow.

(** ** The policies *)

Lemma isStrongPassword_rejects (u p : list byte) :
  ~ strong_checks p -> isStrongPassword u p = Ret false.
Proof.
  unfold strong_checks, isStrongPassword.
  rewrite <- hasMinimumLength_spec, <- hasUpper_spec, <- hasLower_spec,
    <- hasDigit_spec, <- isAlphanumericOnly_spec, <- containsString_spec.
  destruct (hasMinimumLength p), (hasUpper p), (hasLower p), (hasDigit p),
    (isAlphanumericOnly p), (containsString p); simpl; try reflexivity.
  intros H. exfalso. apply H. repeat split.
Qed.

Lemma isStrongPassword_searches (u p : list byte) :
  strong_checks p ->
  isStrongPassword u p
  = (found <~ containsUsername u p ;; if found then Ret false else Ret true).
Proof.
  unfold strong_checks, isStrongPassword.
  rewrite <- hasMinimumLength_spec, <- hasUpper_spec, <- hasLower_spec,
    <- hasDigit_spec, <- isAlphanumericOnly_spec, <- containsString_spec.
  intros (-> & -> & -> & -> & -> & ->). reflexivity.
Qed.

Lemma isStrongPassword_true_checks (u p : list byte) :
  isStrongPassword u p = Ret true -> strong_checks p.
Proof.
  unfold strong_checks, isStrongPassword.
  rewrite <- hasMinimumLength_spec, <- hasUpper_spec, <- hasLower_spec,
    <- hasDigit_spec, <- isAlphanumericOnly_spec, <- containsString_spec.
  destruct (hasMinimumLength p), (hasUpper p), (hasLower p), (hasDigit p),
    (isAlphanumericOnly p), (containsString p); simpl; try discriminate.
  intros _. repeat split.
Qed.

Lemma isStrongDefaultPassword_spec (u p : list byte) :
  isStrongDefaultPassword u p = true <-> default_policy p.
Proof.
  unfold default_policy, isStrongDefaultPassword.
  rewrite <- hasUpper_spec, <- hasLower_spec, <- hasDigit_spec,
    <- isAlphanumericOnly_spec.
  destruct (Z.ltb_spec 15 (strlen p)).
  - split; [discriminate|]. intros (? & _). lia.
  - destruct (hasUpper p), (hasLower p), (hasDigit p),
      (isAlphanumericOnly p); simpl; intuition discriminate.
Qed.

(** Where the search stays inside the password the strong policy decides
    as its documentation says: for a username not longer than the password
    (lengths within INT_MAX), isStrongPassword returns a boolean, and it is
    true exactly when the password has at least 8 characters, an uppercase
    letter, a lowercase letter and a digit, only alphanumeric characters, a
    run of 4 letters, and the username is not contained in it: it is empty,
    or does not occur in the password, the case of letters apart. *)
Theorem isStrongPassword_spec (u p : list byte) :
  strlen u <= strlen p -> strlen p <= INT_MAX ->
  exists b : bool,
    isStrongPassword u p = Ret b
    /\ (b = true <->
        strong_checks p
        /\ (c_str u = [] \/ ~ occurs_ci (c_str u) (c_str p))).
Proof.
  intros Hle Hmax.
  destruct (containsUsername_fits u p Hle) as (found & R & W).
  { unfold INT_MAX, SIZE_MODULUS in *. lia. }
  assert (D : strong_checks p \/ ~ strong_checks p).
  { unfold strong_checks.
    rewrite <- hasMinimumLength_spec, <- hasUpper_spec, <- hasLower_spec,
      <- hasDigit_spec, <- isAlphanumericOnly_spec, <- containsString_spec.
    destruct (hasMinimumLength p), (hasUpper p), (hasLower p), (hasDigit p),
      (isAlphanumericOnly p), (containsString p);
      (left; repeat split; fail) || (right; intuition discriminate). }
  destruct D as [C|C].
  - rewrite (isStrongPassword_searches u p C), R. simpl.
    destruct found.
    + exists false. split; [reflexivity|]. split; [discriminate|].
      intros (_ & [E|N]); destruct W as [W _]; destruct (W eq_refl); tauto.
    + exists true. split; [reflexivity|]. split; [intros _|reflexivity].
      split; [assumption|].
      destruct (c_str u) as [|c u'] eqn:E; [left; reflexivity|right].
      intros O. destruct W as [_ W].
      assert (false = true) by (apply W; split; [discriminate|assumption]).
      discriminate.
  - exists false. split; [apply isStrongPassword_rejects; assumption|].
    split; [discriminate|tauto].
Qed.

Lemma isStrongPassword_spec_witness :
  exists b : bool,
    isStrongPassword (lit "alice") (lit "Passw0rd") = Ret b
    /\ (b = true <->
        strong_checks (lit "Passw0rd")
        /\ (c_str (lit "alice") = []
            \/ ~ occurs_ci (c_str (lit "alice")) (c_str (lit "Passw0rd")))).
Proof.
  apply (isStrongPassword_spec (lit "alice") (lit "Passw0rd")).
  - vm_compute. discriminate.
  - vm_compute. discriminate.
Defined.

(** C2: isStrongDefaultPassword returns true exactly when the password has
    at most 15 characters, an uppercase letter, a lowercase letter and a
    digit, and only alphanumeric characters; the username has no effect on
    the result. *)
Theorem isStrongDefaultPassword_policy (u p : list byte) :
  (isStrongDefaultPassword u p = true <->
   strlen p <= 15 /\ Exists upper_letter (c_str p)
   /\ Exists lower_letter (c_str p) /\ Exists digit (c_str p)
   /\ Forall alphanumeric (c_str p))
  /\ (forall u' : list byte,
        isStrongDefaultPassword u p = isStrongDefaultPassword u' p).
Proof.
  split; [apply isStrongDefaultPassword_spec|reflexivity].
Qed.

(** C4, at a username longer than the password: the search reads the
    password behind its terminator. *)
Theorem containsUsername_longer_username_faults :
  containsUsername (lit "ab") (lit "a") = Fault.
Proof.
  apply containsUsername_underflow; reflexivity.
Qed.

(** The same overrun reaches the strong policy: a password that passes the
    six checks is not accepted when the username is longer. *)
Lemma isStrongPassword_longer_username_faults :
  isStrongPassword (lit "alexander") (lit "Passw0rd") = Fault.
Proof.
  rewrite isStrongPassword_searches.
  - rewrite containsUsername_underflow; reflexivity.
  - apply (isStrongPassword_true_checks (lit "")). reflexivity.
Qed.

(** C1, at a username longer than a password that meets every condition of
    the claim: "Passw0rd" has 8 characters, an uppercase letter, lowercase
    letters, a digit, only alphanumeric characters and a run of 4 letters,
    and "alexander" does not occur in it; isStrongPassword does not return
    true, the search for the username reads the password behind its
    terminator. *)
Theorem isStrongPassword_longer_username_not_accepted :
  strong_checks (lit "Passw0rd")
  /\ ~ occurs_ci (c_str (lit "alexander")) (c_str (lit "Passw0rd"))
  /\ isStrongPassword (lit "alexander") (lit "Passw0rd") = Fault
  /\ isStrongPassword (lit "alexander") (lit "Passw0rd") <> Ret true.
Proof.
  assert (C : strong_checks (lit "Passw0rd"))
    by (apply (isStrongPassword_true_checks (lit "")); reflexivity).
  assert (F : isStrongPassword (lit "alexander") (lit "Passw0rd") = Fault).
  { rewrite (isStrongPassword_searches _ _ C).
    rewrite containsUsername_underflow; reflexivity. }
  split; [assumption|]. split; [|split; [assumption|rewrite F; discriminate]].
  intros (pre & w & post & E & W).
  apply (f_equal (@length byte)) in E. rewrite !length_app in E.
  apply (f_equal (@length Z)) in W. rewrite !length_fold_case in W.
  change (length (c_str (lit "Passw0rd"))) with 8%nat in E.
  change (length (c_str (lit "alexander"))) with 9%nat in W.
  lia.
Qed.

(** C5 as stated fails: "nobody" has no window that reads "bob". *)
Lemma containsUsername_nobody_counterexample :
  ~ (containsUsername (lit "Bob") (lit "I know bob smith") = Ret true
     /\ containsUsername (lit "Bob") (lit "nobody") = Ret true).
Proof.
  intros [_ H]. vm_compute in H. discriminate H.
Qed.

(** C5, amended: containsUsername("Bob", "I know bob smith") returns true,
    and containsUsername("Bob", "nobody") returns false. *)
Theorem containsUsername_bob_examples :
  containsUsername (lit "Bob") (lit "I know bob smith") = Ret true
  /\ containsUsername (lit "Bob") (lit "nobody") = Ret false.
Proof.
  split; vm_compute; reflexivity.
Qed.

(** C6: the empty username is found in no password. *)
Theorem containsUsername_empty_username (p : list byte) :
  containsUsername (lit "") p = Ret false.
Proof.
  reflexivity.
Qed.

(** C7: containsString returns true exactly when the password has a
    contiguous run of at least 4 letters; it is true of "ab1cdef" and false
    of "ab1cde". *)
Theorem containsString_four_letters :
  (forall p : list byte, containsString p = true <-> letter_run 4 (c_str p))
  /\ containsString (lit "ab1cdef") = true
  /\ containsString (lit "ab1cde") = false.
Proof.
  split; [exact containsString_spec|]. split; reflexivity.
Qed.

(** C8, at the empty password and a username of one character:
    containsUsername does not return a boolean, it reads the password
    behind its terminator. *)
Theorem containsUsername_not_total :
  containsUsername (lit "x") (lit "") = Fault
  /\ forall b : bool, containsUsername (lit "x") (lit "") <> Ret b.
Proof.
  assert (F : containsUsername (lit "x") (lit "") = Fault)
    by (apply containsUsername_underflow; reflexivity).
  split; [assumption|]. intros b. rewrite F. discriminate.
Qed.

(** The other predicates are functions to [bool], defined on every list of
    bytes; on the empty string they give these values. *)
Lemma predicates_empty_string :
  hasUpper [] = false /\ hasLower [] = false /\ hasDigit [] = false
  /\ hasMinimumLength [] = false /\ isAlphanumericOnly [] = true
  /\ containsString [] = false.
Proof. repeat split. Qed.

(** A byte above 127 is in no class, and [tolower] leaves it alone. *)
Lemma non_ascii_in_no_class (c : byte) :
  127 < char_to_int c ->
  isupper (char_to_int c) = false /\ islower (char_to_int c) = false
  /\ isdigit (char_to_int c) = false /\ isalpha (char_to_int c) = false
  /\ isalnum (char_to_int c) = false
  /\ tolower (char_to_int c) = char_to_int c.
Proof.
  intros H. unfold isalnum, isalpha, tolower, isupper, islower, isdigit.
  destruct (Z.leb_spec (char_to_int c) 90), (Z.leb_spec (char_to_int c) 122),
    (Z.leb_spec (char_to_int c) 57); try lia.
  rewrite !andb_false_r. repeat split.
Qed.

(** C9: a password of at most 15 characters that the strong policy accepts
    is accepted by the default policy. *)
Theorem strong_implies_default (u p : list byte) :
  isStrongPassword u p = Ret true -> strlen p <= 15 ->
  isStrongDefaultPassword u p = true.
Proof.
  intros H L. apply isStrongPassword_true_checks in H.
  apply isStrongDefaultPassword_spec.
  destruct H as (_ & U & Lo & D & A & _). repeat split; assumption.
Qed.

Lemma strong_implies_default_witness :
  isStrongDefaultPassword (lit "alice") (lit "Passw0rd") = true.
Proof.
  apply (strong_implies_default (lit "alice") (lit "Passw0rd")).
  - vm_compute. reflexivity.
  - vm_compute. discriminate.
Defined.

(** C10: both policies reject the empty password, whatever the username:
    it has no uppercase letter, although it is vacuously alphanumeric. *)
Theorem empty_password_rejected (u : list byte) :
  isStrongPassword u (lit "") = Ret false
  /\ isStrongDefaultPassword u (lit "") = false
  /\ isAlphanumericOnly (lit "") = true
  /\ hasUpper (lit "") = false.
Proof.
  repeat split.
Qed.

(** ** The generator *)

Lemma default_policy_length (p : list byte) :
  default_policy p -> 1 <= strlen p <= 15.
Proof.
  intros (L & U & _). split; [|assumption].
  rewrite strlen_c_str. destruct (c_str p); [inversion U|simpl; lia].
Qed.

Lemma default_policy_c_str (p : list byte) :
  default_policy (c_str p) <-> default_policy p.
Proof.
  unfold default_policy. rewrite c_str_idemp, !strlen_c_str, c_str_idemp.
  reflexivity.
Qed.

(** The loop ends only on a buffer the default policy accepts. *)
Lemma generateDefaultPassword_loop_accepts (rand : nat -> Z) (u : list byte) :
  forall (fuel calls : nat) (buf0 buf : list byte),
    generateDefaultPassword_loop rand fuel calls buf0 u = Some (Ret buf) ->
    isStrongDefaultPassword u buf = true.
Proof.
  induction fuel as [|fuel IH]; intros calls buf0 buf; simpl; [discriminate|].
  destruct (generate_candidate rand calls buf0) as [[buf1 calls1]|];
    [|discriminate].
  destruct (isStrongDefaultPassword u buf1) eqn:A; simpl.
  - intros [= <-]. assumption.
  - apply IH.
Qed.

(** More rounds do not change what the loop has produced. *)
Lemma generateDefaultPassword_loop_more_fuel (rand : nat -> Z) (u : list byte) :
  forall (fuel fuel' calls : nat) (buf0 : list byte) (r : res (list byte)),
    (fuel <= fuel')%nat ->
    generateDefaultPassword_loop rand fuel calls buf0 u = Some r ->
    generateDefaultPassword_loop rand fuel' calls buf0 u = Some r.
Proof.
  induction fuel as [|fuel IH]; intros fuel' calls buf0 r Hle; simpl;
    [discriminate|].
  destruct fuel' as [|fuel']; [lia|]. simpl.
  destruct (generate_candidate rand calls buf0) as [[buf1 calls1]|];
    [|trivial].
  destruct (isStrongDefaultPassword u buf1); simpl; [trivial|].
  apply IH. lia.
Qed.

(** C3: every password generateDefaultPassword leaves in the buffer
    satisfies the default policy and has between 1 and 15 characters,
    whatever the username and the random numbers. *)
Theorem generateDefaultPassword_default (rand : nat -> Z) (fuel : nat)
    (buf0 u buf : list byte) :
  generateDefaultPassword rand fuel buf0 u = Some (Ret buf) ->
  let g := c_str buf in
  isStrongDefaultPassword u buf = true
  /\ isStrongDefaultPassword u g = true
  /\ 1 <= Z.of_nat (length g) <= 15.
Proof.
  intros H g. apply generateDefaultPassword_loop_accepts in H.
  split; [assumption|].
  apply isStrongDefaultPassword_spec in H.
  split.
  - apply isStrongDefaultPassword_spec, default_policy_c_str. assumption.
  - subst g. rewrite <- strlen_c_str. apply default_policy_length. assumption.
Qed.

Lemma generateDefaultPassword_default_witness :
  let g := lit "St4FgRs3" in
  isStrongDefaultPassword (lit "bob") (g ++ replicate 8 x00) = true
  /\ isStrongDefaultPassword (lit "bob") g = true
  /\ 1 <= Z.of_nat (length g) <= 15.
Proof.
  apply (generateDefaultPassword_default rand_example 1 (replicate 16 x00)
           (lit "bob") (lit "St4FgRs3" ++ replicate 8 x00)).
  vm_compute. reflexivity.
Defined.

(** The alphabet has 62 characters, all of them alphanumeric. *)
Lemma validCharacters_read (r : Z) :
  0 <= r ->
  exists c, char_at validCharacters (Z.rem r numValidChars) = Ret c
            /\ alphanumeric c.
Proof.
  intros Hr. change numValidChars with 62.
  pose proof (Z.rem_bound_pos r 62 Hr ltac:(lia)) as B.
  destruct (char_at_string validCharacters (Z.to_nat (Z.rem r 62)))
    as (c & L & R).
  { change (length (c_str validCharacters)) with 62%nat. lia. }
  rewrite Z2Nat.id in R by lia. exists c. split; [assumption|].
  assert (F : Forall alphanumeric (c_str validCharacters))
    by (apply isAlphanumericOnly_spec; reflexivity).
  rewrite Forall_lookup in F. exact (F _ _ L).
Qed.

Section GeneratorSafety.

Variable rand : nat -> Z.
Hypothesis rand_nonneg : forall k : nat, 0 <= rand k.

(** The fill loop writes [n] characters of the alphabet from index [i] on,
    inside a buffer that has room for them, and leaves the other bytes. *)
Lemma fill_password_writes : forall (n calls : nat) (buf : list byte) (i : nat),
  (i + n <= length buf)%nat ->
  exists chars : list byte,
    fill_password rand n calls buf (Z.of_nat i)
      = Ret (take i buf ++ chars ++ drop (i + n) buf, (calls + n)%nat)
    /\ length chars = n /\ Forall alphanumeric chars.
Proof.
  induction n as [|n IH]; intros calls buf i Hn; simpl.
  - exists []. rewrite !Nat.add_0_r. simpl. rewrite take_drop.
    split; [reflexivity|]. split; [reflexivity|constructor].
  - destruct (validCharacters_read (rand calls) (rand_nonneg calls))
      as (c & R & Hc).
    rewrite R. cbn [bind]. unfold store.
    destruct (Z.leb_spec 0 (Z.of_nat i)); [|lia].
    destruct (Z.ltb_spec (Z.of_nat i) (Z.of_nat (length buf))); [|lia].
    cbn [andb bind]. rewrite Nat2Z.id.
    destruct (IH (S calls) (<[i:=c]> buf) (S i)) as (chars & F & L & A);
      [rewrite length_insert; lia|].
    replace (Z.of_nat i + 1) with (Z.of_nat (S i)) by lia.
    exists (c :: chars). rewrite F.
    rewrite (take_S_r _ i c) by (apply list_lookup_insert_eq; lia).
    rewrite take_insert_ge by lia. rewrite drop_insert_lt by lia.
    rewrite <- app_assoc. simpl.
    replace (S (i + n)) with (i + S n)%nat by lia.
    replace (S (calls + n)) with (calls + S n)%nat by lia.
    split; [reflexivity|]. split; [simpl; lia|constructor; assumption].
Qed.

(** One round leaves in a buffer of 16 bytes a string of
    [rand() % 15 + 1] characters of the alphabet, and its terminator. *)
Lemma generate_candidate_string (calls : nat) (buf : list byte) :
  (16 <= length buf)%nat ->
  exists (chars rest : list byte) (calls' : nat),
    generate_candidate rand calls buf = Ret (chars ++ x00 :: rest, calls')
    /\ length (chars ++ x00 :: rest) = length buf
    /\ Z.of_nat (length chars) = Z.rem (rand calls) 15 + 1
    /\ Forall alphanumeric chars
    /\ c_str (chars ++ x00 :: rest) = chars.
Proof.
  intros Hlen. unfold generate_candidate.
  pose proof (Z.rem_bound_pos (rand calls) 15 (rand_nonneg calls)
                ltac:(lia)) as B.
  set (len := Z.rem (rand calls) 15 + 1) in *.
  destruct (fill_password_writes (Z.to_nat len) (S calls) buf 0)
    as (chars & F & L & A); [lia|].
  change (Z.of_nat 0) with 0 in F.
  rewrite take_0, Nat.add_0_l, app_nil_l in F.
  rewrite F. cbn [bind fst snd]. unfold store.
  assert (Hl : length (chars ++ drop (Z.to_nat len) buf) = length buf).
  { rewrite length_app, length_drop. lia. }
  rewrite Hl.
  destruct (Z.leb_spec 0 len); [|lia].
  destruct (Z.ltb_spec len (Z.of_nat (length buf))); [|lia].
  cbn [andb bind].
  rewrite insert_take_drop by lia.
  rewrite take_app_length' by lia.
  eexists chars, _, _. split; [reflexivity|].
  split; [|split; [lia|split; [assumption|]]].
  - rewrite length_app. simpl. rewrite length_drop, length_app, length_drop. lia.
  - apply c_str_terminated. eapply Forall_impl; [exact A|].
    exact alphanumeric_not_nul.
Qed.

(** The generator never writes outside a buffer of 16 bytes. *)
Lemma generateDefaultPassword_loop_safe (u : list byte) :
  forall (fuel calls : nat) (buf : list byte),
    (16 <= length buf)%nat ->
    generateDefaultPassword_loop rand fuel calls buf u <> Some Fault.
Proof.
  induction fuel as [|fuel IH]; intros calls buf Hlen; simpl; [discriminate|].
  destruct (generate_candidate_string calls buf Hlen)
    as (chars & rest & calls1 & R & L & _).
  rewrite R. destruct (isStrongDefaultPassword u (chars ++ x00 :: rest)); simpl.
  - discriminate.
  - apply IH. lia.
Qed.

End GeneratorSafety.

(** The loop has no bound: when [rand()] keeps returning 0 every candidate
    is "a", and no number of rounds produces a password. *)
Lemma generateDefaultPassword_loop_may_not_end (u : list byte) :
  forall (fuel calls : nat) (b0 b1 : byte) (rest : list byte),
    generateDefaultPassword_loop (fun _ => 0) fuel calls (b0 :: b1 :: rest) u
    = None.
Proof.
  induction fuel as [|fuel IH]; intros calls b0 b1 rest; [reflexivity|].
  assert (R : generate_candidate (fun _ => 0) calls (b0 :: b1 :: rest)
              = Ret ("a"%byte :: x00 :: rest, S (S calls))).
  { unfold generate_candidate.
    change (Z.to_nat (Z.rem 0 15 + 1)) with 1%nat.
    change (Z.rem 0 15 + 1) with 1.
    cbn [fill_password].
    change (char_at validCharacters (Z.rem 0 numValidChars))
      with (Ret "a"%byte).
    cbn [bind]. unfold store at 1. rewrite !length_cons.
    destruct (Z.ltb_spec 0 (Z.of_nat (S (S (length rest))))); [|lia].
    cbn [andb Z.leb Z.compare bind fst snd]. unfold store.
    rewrite length_insert, !length_cons.
    destruct (Z.ltb_spec 1 (Z.of_nat (S (S (length rest))))); [|lia].
    reflexivity. }
  cbn [generateDefaultPassword_loop]. rewrite R.
  change (isStrongDefaultPassword u ("a"%byte :: x00 :: rest)) with false.
  apply IH.
Qed.

(** ** Further properties of the predicates *)

Lemma hasUpper_c_str (buf : list byte) : hasUpper (c_str buf) = hasUpper buf.
Proof.
  induction buf as [|c s IH]; simpl; [reflexivity|].
  destruct (is_nul c) eqn:E; simpl; [reflexivity|]. rewrite E, IH. reflexivity.
Qed.

Lemma hasLower_c_str (buf : list byte) : hasLower (c_str buf) = hasLower buf.
Proof.
  induction buf as [|c s IH]; simpl; [reflexivity|].
  destruct (is_nul c) eqn:E; simpl; [reflexivity|]. rewrite E, IH. reflexivity.
Qed.

Lemma hasDigit_c_str (buf : list byte) : hasDigit (c_str buf) = hasDigit buf.
Proof.
  induction buf as [|c s IH]; simpl; [reflexivity|].
  destruct (is_nul c) eqn:E; simpl; [reflexivity|]. rewrite E, IH. reflexivity.
Qed.

Lemma isAlphanumericOnly_c_str (buf : list byte) :
  isAlphanumericOnly (c_str buf) = isAlphanumericOnly buf.
Proof.
  induction buf as [|c s IH]; simpl; [reflexivity|].
  destruct (is_nul c) eqn:E; simpl; [reflexivity|]. rewrite E, IH. reflexivity.
Qed.

Lemma containsString_loop_c_str (buf : list byte) : forall n : Z,
  containsString_loop n (c_str buf) = containsString_loop n buf.
Proof.
  induction buf as [|c s IH]; intros n; simpl; [reflexivity|].
  destruct (is_nul c) eqn:E; simpl; [reflexivity|]. rewrite E, !IH. reflexivity.
Qed.

Lemma strlen_c_str_idemp (buf : list byte) : strlen (c_str buf) = strlen buf.
Proof. rewrite !strlen_c_str, c_str_idemp. reflexivity. Qed.

(** The three classes have no character in common, so a string with one
    of each has three characters. *)
Lemma three_classes_length (s : list byte) :
  Exists upper_letter s -> Exists lower_letter s -> Exists digit s ->
  (3 <= length s)%nat.
Proof.
  intros U L D.
  destruct s as [|a [|b [|c s]]]; simpl; try lia;
    rewrite ?Exists_cons, ?Exists_nil in U, L, D;
    unfold upper_letter, lower_letter, digit in *; exfalso;
    intuition lia.
Qed.

(** X1: each of hasUpper, hasLower and hasDigit returns true exactly when a
    character of its class stands before the terminator. *)
Theorem class_scans_find_their_class (pwd : list byte) :
  (hasUpper pwd = true <->
   exists c, In c (c_str pwd) /\ 65 <= char_to_int c <= 90)
  /\ (hasLower pwd = true <->
      exists c, In c (c_str pwd) /\ 97 <= char_to_int c <= 122)
  /\ (hasDigit pwd = true <->
      exists c, In c (c_str pwd) /\ 48 <= char_to_int c <= 57).
Proof.
  rewrite hasUpper_spec, hasLower_spec, hasDigit_spec.
  rewrite !List.Exists_exists. repeat split; intros H; exact H.
Qed.

(** X2: isAlphanumericOnly returns true exactly when every character before
    the terminator is a letter or a digit; in particular one other
    character anywhere in the string makes it false. *)
Theorem isAlphanumericOnly_every_character (pwd : list byte) :
  (isAlphanumericOnly pwd = true <-> Forall alphanumeric (c_str pwd))
  /\ (forall c, In c (c_str pwd) -> ~ alphanumeric c ->
                isAlphanumericOnly pwd = false).
Proof.
  split; [apply isAlphanumericOnly_spec|].
  intros c Hin Hc.
  destruct (isAlphanumericOnly pwd) eqn:E; [|reflexivity].
  apply isAlphanumericOnly_spec in E.
  rewrite List.Forall_forall in E. destruct (Hc (E c Hin)).
Qed.

(** X3: the predicates on one string, and the default policy, look at
    nothing behind the terminator: on a buffer they give what they give on
    the string it holds. *)
Theorem predicates_stop_at_terminator (buf : list byte) :
  containsString (c_str buf) = containsString buf
  /\ hasUpper (c_str buf) = hasUpper buf
  /\ hasDigit (c_str buf) = hasDigit buf
  /\ hasLower (c_str buf) = hasLower buf
  /\ hasMinimumLength (c_str buf) = hasMinimumLength buf
  /\ isAlphanumericOnly (c_str buf) = isAlphanumericOnly buf
  /\ (forall u, isStrongDefaultPassword u (c_str buf)
                = isStrongDefaultPassword u buf).
Proof.
  repeat split.
  - apply containsString_loop_c_str.
  - apply hasUpper_c_str.
  - apply hasDigit_c_str.
  - apply hasLower_c_str.
  - unfold hasMinimumLength. rewrite strlen_c_str_idemp. reflexivity.
  - apply isAlphanumericOnly_c_str.
  - intros u. unfold isStrongDefaultPassword.
    rewrite strlen_c_str_idemp, hasUpper_c_str, hasLower_c_str,
      hasDigit_c_str, isAlphanumericOnly_c_str. reflexivity.
Qed.

(** X4: a password the default policy accepts has between 3 and 15
    characters: an uppercase letter, a lowercase letter and a digit are
    three different characters. *)
Theorem isStrongDefaultPassword_length (u p : list byte) :
  isStrongDefaultPassword u p = true -> 3 <= strlen p <= 15.
Proof.
  intros H. apply isStrongDefaultPassword_spec in H.
  destruct H as (L & U & Lo & D & _). split; [|assumption].
  rewrite strlen_c_str.
  pose proof (three_classes_length _ U Lo D). lia.
Qed.

Lemma isStrongDefaultPassword_length_witness :
  3 <= strlen (lit "aB3") <= 15.
Proof.
  apply (isStrongDefaultPassword_length (lit "bob") (lit "aB3")).
  vm_compute. reflexivity.
Defined.

(** ** Further properties of the search for the username *)

Lemma strong_checks_dec (p : list byte) : strong_checks p \/ ~ strong_checks p.
Proof.
  unfold strong_checks.
  rewrite <- hasMinimumLength_spec, <- hasUpper_spec, <- hasLower_spec,
    <- hasDigit_spec, <- isAlphanumericOnly_spec, <- containsString_spec.
  destruct (hasMinimumLength p), (hasUpper p), (hasLower p), (hasDigit p),
    (isAlphanumericOnly p), (containsString p);
    (left; repeat split; fail) || (right; intuition discriminate).
Qed.

Lemma occurs_ci_length (u s : list byte) :
  occurs_ci u s -> (length u <= length s)%nat.
Proof.
  intros (pre & w & post & -> & E).
  assert (L : length w = length u).
  { rewrite <- (length_fold_case w), E. apply length_fold_case. }
  rewrite !length_app. lia.
Qed.

(** Whether a string occurs in another depends on the two strings folded
    to lower case only. *)
Lemma occurs_ci_fold (u u' s s' : list byte) :
  fold_case u = fold_case u' -> fold_case s = fold_case s' ->
  occurs_ci u s -> occurs_ci u' s'.
Proof.
  intros Eu Es. rewrite !occurs_ci_window.
  assert (Lu : length u = length u').
  { rewrite <- (length_fold_case u), Eu. apply length_fold_case. }
  assert (Ls : length s = length s').
  { rewrite <- (length_fold_case s), Es. apply length_fold_case. }
  intros (i & Hi & W). exists i. split; [lia|].
  intros t Ht. rewrite <- Eu, <- Es. apply W. lia.
Qed.

Lemma strlen_exact_no_nul (s : list byte) :
  strlen s = Z.of_nat (length s) -> Forall (fun c => is_nul c = false) s.
Proof.
  induction s as [|c s IH]; simpl; [constructor|].
  pose proof (strlen_le_length s).
  destruct (is_nul c) eqn:E; [lia|].
  intros H'. constructor; [assumption|]. apply IH. lia.
Qed.

Lemma char_at_inside (s : list byte) (t : nat) (c : byte) :
  s !! t = Some c -> char_at s (Z.of_nat t) = Ret c.
Proof.
  intros H. unfold char_at. destruct (Z.ltb_spec (Z.of_nat t) 0); [lia|].
  rewrite Nat2Z.id, H. reflexivity.
Qed.

Section Windows.

Variables username buffer : list byte.
Variable i : nat.

(** A window that lies inside the bytes of the buffer is compared without
    a fault, whatever the bytes are. *)
Lemma containsUsername_inner_inside : forall (n j : nat),
  (i + j + n <= length buffer)%nat -> (j + n <= length username)%nat ->
  exists j' : Z,
    containsUsername_inner n username buffer (Z.of_nat i) (Z.of_nat j)
    = Ret j'.
Proof.
  induction n as [|n IH]; intros j Hb Hu; simpl; [eauto|].
  destruct (lookup_lt_is_Some_2 buffer (i + j)) as (a & La); [lia|].
  destruct (lookup_lt_is_Some_2 username j) as (b & Lb); [lia|].
  replace (Z.of_nat i + Z.of_nat j) with (Z.of_nat (i + j)) by lia.
  rewrite (char_at_inside _ _ _ La), (char_at_inside _ _ _ Lb). cbn [bind].
  destruct (negb (tolower (char_to_int a) =? tolower (char_to_int b)));
    [eauto|].
  replace (Z.of_nat j + 1) with (Z.of_nat (S j)) by lia.
  apply IH; lia.
Qed.

(** A window that holds the bytes of the username runs to its end. *)
Lemma containsUsername_inner_match : forall (n j : nat),
  (forall t : nat, (j <= t < j + n)%nat ->
     exists c, buffer !! (i + t)%nat = Some c /\ username !! t = Some c) ->
  containsUsername_inner n username buffer (Z.of_nat i) (Z.of_nat j)
  = Ret (Z.of_nat (j + n)).
Proof.
  induction n as [|n IH]; intros j H; simpl.
  - rewrite Nat.add_0_r. reflexivity.
  - destruct (H j) as (c & La & Lb); [lia|].
    replace (Z.of_nat i + Z.of_nat j) with (Z.of_nat (i + j)) by lia.
    rewrite (char_at_inside _ _ _ La), (char_at_inside _ _ _ Lb). cbn [bind].
    rewrite Z.eqb_refl. cbn [negb].
    replace (Z.of_nat j + 1) with (Z.of_nat (S j)) by lia.
    rewrite IH; [f_equal; lia|].
    intros t Ht. apply H. lia.
Qed.

End Windows.

(** The scan reaches a copy of the username that lies in the buffer, when
    every window up to it lies inside the buffer. *)
Lemma containsUsername_outer_reaches (username buffer : list byte) (at_ : nat) :
  strlen username = Z.of_nat (length username) ->
  (at_ + length username <= length buffer)%nat ->
  (forall t : nat, (t < length username)%nat ->
     exists c, buffer !! (at_ + t)%nat = Some c /\ username !! t = Some c) ->
  forall (n i : nat), (i <= at_ < i + n)%nat ->
    containsUsername_outer n username buffer (Z.of_nat i) = Ret true.
Proof.
  intros Hu Hfit Hcopy. induction n as [|n IH]; intros i Hi; simpl; [lia|].
  rewrite Hu, Nat2Z.id.
  destruct (decide (i = at_)) as [->|Hne].
  - pose proof (containsUsername_inner_match username buffer at_
                  (length username) 0%nat) as M.
    change (Z.of_nat 0) with 0 in M.
    rewrite M by (intros t Ht; apply Hcopy; lia).
    cbn [bind]. rewrite Z.eqb_refl. reflexivity.
  - destruct (containsUsername_inner_inside username buffer i
                (length username) 0%nat) as (j' & R); [lia|lia|].
    change (Z.of_nat 0) with 0 in R. rewrite R. cbn [bind].
    destruct (j' =? Z.of_nat (length username)); [reflexivity|].
    replace (Z.of_nat i + 1) with (Z.of_nat (S i)) by lia.
    apply IH. lia.
Qed.

(** X5: when the username is not longer than the password, containsUsername
    reads inside the two strings only and returns true exactly when the
    username is not empty and occurs in the password, the case of letters
    apart. *)
Theorem containsUsername_finds_occurrences (u p : list byte) :
  strlen u <= strlen p -> strlen p <= INT_MAX ->
  exists b : bool,
    containsUsername u p = Ret b
    /\ (b = true <-> c_str u <> [] /\ occurs_ci (c_str u) (c_str p)).
Proof.
  intros Hle Hmax. apply containsUsername_fits; [assumption|].
  unfold INT_MAX, SIZE_MODULUS in *. lia.
Qed.

Lemma containsUsername_finds_occurrences_witness :
  exists b : bool,
    containsUsername (lit "Bob") (lit "XbOb9") = Ret b
    /\ (b = true <->
        c_str (lit "Bob") <> []
        /\ occurs_ci (c_str (lit "Bob")) (c_str (lit "XbOb9"))).
Proof.
  apply (containsUsername_finds_occurrences (lit "Bob") (lit "XbOb9")).
  - vm_compute. discriminate.
  - vm_compute. discriminate.
Defined.

(** X6: when the username is longer than a password that has nothing stored
    behind its terminator, the unsigned bound of the scan wraps around and
    containsUsername reads outside the password. *)
Theorem containsUsername_longer_username_overruns (u p : list byte) :
  strlen p = Z.of_nat (length p) -> strlen p < strlen u ->
  strlen u < SIZE_MODULUS ->
  containsUsername u p = Fault.
Proof.
  intros Hp Hlt Hsz. apply containsUsername_underflow; assumption.
Qed.

Lemma containsUsername_longer_username_overruns_witness :
  containsUsername (lit "administrator") (lit "Passw0rd") = Fault.
Proof.
  apply (containsUsername_longer_username_overruns
           (lit "administrator") (lit "Passw0rd")); reflexivity.
Defined.

(** X7: when the username is longer than the password and the bytes behind
    the terminator of the password hold a copy of the username (what an
    earlier, longer entry left in the buffer), containsUsername finds that
    copy and returns true, and isStrongPassword rejects the password. *)
Theorem containsUsername_finds_stale_copy (u p g rest : list byte) :
  strlen p = Z.of_nat (length p) -> strlen u = Z.of_nat (length u) ->
  (length p < length u)%nat ->
  Z.of_nat (length g + length u) < SIZE_MODULUS ->
  containsUsername u (p ++ x00 :: g ++ u ++ rest) = Ret true
  /\ isStrongPassword u (p ++ x00 :: g ++ u ++ rest) = Ret false.
Proof.
  intros Hp Hu Hlt Hsz.
  set (buffer := p ++ x00 :: g ++ u ++ rest).
  assert (Hstr : c_str buffer = p).
  { apply c_str_terminated, strlen_exact_no_nul. assumption. }
  assert (Hlen : strlen buffer = Z.of_nat (length p)).
  { rewrite strlen_c_str, Hstr. reflexivity. }
  assert (Hfound : containsUsername u buffer = Ret true).
  { unfold containsUsername. rewrite Hlen, Hu.
    destruct (Z.eqb_spec (Z.of_nat (length u)) 0); [lia|].
    assert (W : size_sub (Z.of_nat (length p)) (Z.of_nat (length u))
                = Z.of_nat (length p) - Z.of_nat (length u) + SIZE_MODULUS).
    { unfold size_sub.
      rewrite <- (Z.mod_add _ 1 SIZE_MODULUS) by (unfold SIZE_MODULUS; lia).
      rewrite Z.mod_small; unfold SIZE_MODULUS in *; lia. }
    rewrite W.
    apply (containsUsername_outer_reaches u buffer (length p + 1 + length g)
             Hu) with (i := 0%nat).
    - subst buffer. rewrite !length_app. simpl. rewrite !length_app. lia.
    - intros t Ht.
      destruct (lookup_lt_is_Some_2 u t Ht) as (c & Lc).
      exists c. split; [|assumption]. subst buffer.
      rewrite lookup_app_r by lia.
      replace (length p + 1 + length g + t - length p)%nat
        with (S (length g + t)) by lia.
      rewrite lookup_cons, lookup_app_r by lia.
      replace (length g + t - length g)%nat with t by lia.
      rewrite lookup_app_l by lia. assumption.
    - unfold SIZE_MODULUS in *. lia. }
  split; [assumption|].
  destruct (strong_checks_dec buffer) as [C|C].
  - rewrite (isStrongPassword_searches u buffer C), Hfound. reflexivity.
  - apply isStrongPassword_rejects. assumption.
Qed.

Lemma containsUsername_finds_stale_copy_witness :
  containsUsername (lit "administrator")
    (lit "Passw0rd" ++ x00 :: lit "X9" ++ lit "administrator" ++ lit "12")
  = Ret true
  /\ isStrongPassword (lit "administrator")
       (lit "Passw0rd" ++ x00 :: lit "X9" ++ lit "administrator" ++ lit "12")
     = Ret false.
Proof.
  apply (containsUsername_finds_stale_copy (lit "administrator")
           (lit "Passw0rd") (lit "X9") (lit "12")).
  - reflexivity.
  - reflexivity.
  - vm_compute. lia.
  - reflexivity.
Defined.

(** X8: containsUsername does not see the case of letters: two usernames
    and two passwords that are equal once folded to lower case give the
    same result. *)
Theorem containsUsername_ignores_case (u u' p p' : list byte) :
  strlen u <= strlen p -> strlen p <= INT_MAX ->
  fold_case (c_str u) = fold_case (c_str u') ->
  fold_case (c_str p) = fold_case (c_str p') ->
  containsUsername u p = containsUsername u' p'.
Proof.
  intros Hle Hmax Eu Ep.
  assert (Lu : strlen u' = strlen u).
  { rewrite !strlen_c_str, <- (length_fold_case (c_str u')), <- Eu,
      length_fold_case. reflexivity. }
  assert (Lp : strlen p' = strlen p).
  { rewrite !strlen_c_str, <- (length_fold_case (c_str p')), <- Ep,
      length_fold_case. reflexivity. }
  destruct (containsUsername_fits u p) as (b & R & W);
    [assumption|unfold INT_MAX, SIZE_MODULUS in *; lia|].
  destruct (containsUsername_fits u' p') as (b' & R' & W');
    [lia|unfold INT_MAX, SIZE_MODULUS in *; lia|].
  rewrite R, R'. f_equal.
  assert (N : c_str u <> [] <-> c_str u' <> []).
  { rewrite !strlen_c_str in Lu.
    destruct (c_str u), (c_str u'); simpl in Lu; try lia;
      split; intros; congruence. }
  assert (O : occurs_ci (c_str u) (c_str p)
              <-> occurs_ci (c_str u') (c_str p')).
  { split; apply occurs_ci_fold; congruence. }
  destruct b, b'; try reflexivity.
  - destruct W as [W _]. destruct (W eq_refl) as [A B].
    symmetry. apply W'. tauto.
  - destruct W' as [W' _]. destruct (W' eq_refl) as [A B].
    apply W. tauto.
Qed.

Lemma containsUsername_ignores_case_witness :
  containsUsername (lit "Bob") (lit "xxBOBxx")
  = containsUsername (lit "bOB") (lit "XXbobXX").
Proof.
  apply (containsUsername_ignores_case (lit "Bob") (lit "bOB")
           (lit "xxBOBxx") (lit "XXbobXX")).
  - vm_compute. discriminate.
  - vm_compute. discriminate.
  - reflexivity.
  - reflexivity.
Defined.

(** X9: isStrongPassword returns false for every password in which the
    username, when it is not empty, occurs in any mix of cases. *)
Theorem isStrongPassword_rejects_username (u p : list byte) :
  c_str u <> [] -> occurs_ci (c_str u) (c_str p) -> strlen p <= INT_MAX ->
  isStrongPassword u p = Ret false.
Proof.
  intros Hne Hocc Hmax.
  pose proof (occurs_ci_length _ _ Hocc) as Hlen.
  destruct (containsUsername_fits u p) as (b & R & W);
    [rewrite !strlen_c_str; lia|unfold INT_MAX, SIZE_MODULUS in *; lia|].
  assert (b = true) as -> by (apply W; split; assumption).
  destruct (strong_checks_dec p) as [C|C].
  - rewrite (isStrongPassword_searches u p C), R. reflexivity.
  - apply isStrongPassword_rejects. assumption.
Qed.

Lemma isStrongPassword_rejects_username_witness :
  isStrongPassword (lit "bob") (lit "Bob12345") = Ret false.
Proof.
  apply (isStrongPassword_rejects_username (lit "bob") (lit "Bob12345")).
  - discriminate.
  - exists [], (lit "Bob"), (lit "12345"). split; reflexivity.
  - vm_compute. discriminate.
Defined.

(** X10: for a username longer than a password that has nothing stored
    behind its terminator, isStrongPassword returns false when one of the
    six checks on the password fails, since the search is not reached, and
    reads outside the password when they all pass. *)
Theorem isStrongPassword_longer_username (u p : list byte) :
  strlen p = Z.of_nat (length p) -> strlen p < strlen u ->
  strlen u < SIZE_MODULUS ->
  isStrongPassword u p
  = if hasMinimumLength p && hasUpper p && hasLower p && hasDigit p
       && isAlphanumericOnly p && containsString p
    then Fault else Ret false.
Proof.
  intros Hp Hlt Hsz. unfold isStrongPassword.
  rewrite containsUsername_underflow by assumption.
  destruct (hasMinimumLength p), (hasUpper p), (hasLower p), (hasDigit p),
    (isAlphanumericOnly p), (containsString p); reflexivity.
Qed.

Lemma isStrongPassword_longer_username_witness :
  isStrongPassword (lit "administrator") (lit "Passw0rd") = Fault.
Proof.
  apply (isStrongPassword_longer_username (lit "administrator")
           (lit "Passw0rd")); reflexivity.
Defined.

(** ** Further properties of the generator *)

Section GeneratorRounds.

Variable rand : nat -> Z.
Hypothesis rand_nonneg : forall k : nat, 0 <= rand k.

(** The fill loop leaves a buffer that has no room for the bytes it
    writes. *)
Lemma fill_password_overrun : forall (n calls : nat) (buf : list byte) (i : nat),
  (i <= length buf)%nat -> (length buf < i + n)%nat ->
  fill_password rand n calls buf (Z.of_nat i) = Fault.
Proof.
  induction n as [|n IH]; intros calls buf i Hi Hn; simpl; [lia|].
  destruct (validCharacters_read (rand calls) (rand_nonneg calls))
    as (c & R & _).
  rewrite R. cbn [bind]. unfold store.
  destruct (Z.leb_spec 0 (Z.of_nat i)); [|lia].
  destruct (Z.ltb_spec (Z.of_nat i) (Z.of_nat (length buf))); cbn [andb bind].
  - replace (Z.of_nat i + 1) with (Z.of_nat (S i)) by lia.
    apply IH; rewrite length_insert; lia.
  - reflexivity.
Qed.

(** One round, in full: the characters, the terminator behind them, the
    bytes of the buffer it leaves alone and the calls of [rand()] it
    makes. *)
Lemma generate_candidate_writes (calls : nat) (buf : list byte) :
  Z.rem (rand calls) 15 + 1 < Z.of_nat (length buf) ->
  exists chars : list byte,
    generate_candidate rand calls buf
    = Ret (chars ++ x00 :: drop (S (length chars)) buf,
           (S calls + length chars)%nat)
    /\ Z.of_nat (length chars) = Z.rem (rand calls) 15 + 1
    /\ Forall alphanumeric chars.
Proof.
  intros Hlen. unfold generate_candidate.
  pose proof (Z.rem_bound_pos (rand calls) 15 (rand_nonneg calls)
                ltac:(lia)) as B.
  set (len := Z.rem (rand calls) 15 + 1) in *.
  destruct (fill_password_writes rand rand_nonneg (Z.to_nat len) (S calls)
              buf 0) as (chars & F & L & A); [lia|].
  change (Z.of_nat 0) with 0 in F.
  rewrite take_0, Nat.add_0_l, app_nil_l in F.
  rewrite F. cbn [bind fst snd]. unfold store.
  assert (Hl : length (chars ++ drop (Z.to_nat len) buf) = length buf).
  { rewrite length_app, length_drop. lia. }
  rewrite Hl.
  destruct (Z.leb_spec 0 len); [|lia].
  destruct (Z.ltb_spec len (Z.of_nat (length buf))); [|lia].
  cbn [andb bind].
  rewrite insert_take_drop by lia.
  rewrite take_app_length' by lia.
  rewrite drop_app_ge by lia.
  rewrite drop_drop.
  replace (Z.to_nat len + (S (Z.to_nat len) - length chars))%nat
    with (S (length chars)) by lia.
  exists chars. rewrite L. split; [reflexivity|]. split; [lia|assumption].
Qed.

(** Rounds that draw fewer than three characters are all rejected; the
    loop is followed from the call that draws the length of round [r]. *)
Lemma generateDefaultPassword_loop_short_draws (u : list byte) :
  (forall r : nat, Z.rem (rand (length_call rand r)) 15 + 1 < 3) ->
  forall (fuel r : nat) (buf : list byte),
    (16 <= length buf)%nat ->
    generateDefaultPassword_loop rand fuel (length_call rand r) buf u = None.
Proof.
  intros Hshort. induction fuel as [|fuel IH]; intros r buf Hlen;
    [reflexivity|]. simpl.
  pose proof (Z.rem_bound_pos (rand (length_call rand r)) 15
                (rand_nonneg _) ltac:(lia)) as B.
  destruct (generate_candidate_writes (length_call rand r) buf)
    as (chars & R & Hc & A); [lia|].
  rewrite R.
  assert (Hs : c_str (chars ++ x00 :: drop (S (length chars)) buf) = chars).
  { apply c_str_terminated. eapply Forall_impl; [exact A|].
    exact alphanumeric_not_nul. }
  destruct (isStrongDefaultPassword u
              (chars ++ x00 :: drop (S (length chars)) buf)) eqn:Q; simpl.
  - exfalso. apply isStrongDefaultPassword_spec in Q.
    destruct Q as (_ & U & Lo & D & _). rewrite Hs in U, Lo, D.
    pose proof (three_classes_length _ U Lo D).
    specialize (Hshort r). lia.
  - replace (S (length_call rand r + length chars))
      with (length_call rand (S r)) by (simpl; lia).
    apply IH. rewrite length_app. simpl. rewrite length_drop. lia.
Qed.

End GeneratorRounds.

Lemma generateDefaultPassword_loop_length (rand : nat -> Z) (u : list byte) :
  (forall k : nat, 0 <= rand k) ->
  forall (fuel calls : nat) (buf0 buf : list byte),
    (16 <= length buf0)%nat ->
    generateDefaultPassword_loop rand fuel calls buf0 u = Some (Ret buf) ->
    length buf = length buf0.
Proof.
  intros Hr. induction fuel as [|fuel IH]; intros calls buf0 buf Hlen; simpl;
    [discriminate|].
  destruct (generate_candidate_string rand Hr calls buf0 Hlen)
    as (chars & rest & calls1 & R & L & _).
  rewrite R.
  destruct (isStrongDefaultPassword u (chars ++ x00 :: rest)); simpl.
  - intros [= <-]. assumption.
  - intros H. apply IH in H; [congruence|lia].
Qed.

Lemma generateDefaultPassword_loop_username (rand : nat -> Z)
    (u u' : list byte) :
  forall (fuel calls : nat) (buf : list byte),
    generateDefaultPassword_loop rand fuel calls buf u
    = generateDefaultPassword_loop rand fuel calls buf u'.
Proof.
  induction fuel as [|fuel IH]; intros calls buf; simpl; [reflexivity|].
  destruct (generate_candidate rand calls buf) as [[buf1 calls1]|];
    [|reflexivity].
  change (isStrongDefaultPassword u' buf1)
    with (isStrongDefaultPassword u buf1).
  destruct (isStrongDefaultPassword u buf1); simpl; [reflexivity|apply IH].
Qed.

(** X11: with a buffer of at least 16 bytes generateDefaultPassword never
    writes outside the buffer, and the buffer it returns has the size of
    the one it was given. *)
Theorem generateDefaultPassword_stays_in_buffer (rand : nat -> Z)
    (fuel : nat) (buf0 u : list byte) :
  (forall k : nat, 0 <= rand k) -> (16 <= length buf0)%nat ->
  generateDefaultPassword rand fuel buf0 u <> Some Fault
  /\ (forall buf, generateDefaultPassword rand fuel buf0 u = Some (Ret buf) ->
                  length buf = length buf0).
Proof.
  intros Hr Hlen. split.
  - apply generateDefaultPassword_loop_safe; assumption.
  - intros buf. apply generateDefaultPassword_loop_length; assumption.
Qed.

Lemma generateDefaultPassword_stays_in_buffer_witness :
  generateDefaultPassword rand_example 1 (replicate 16 x00) (lit "bob")
  <> Some Fault
  /\ (forall buf,
        generateDefaultPassword rand_example 1 (replicate 16 x00) (lit "bob")
        = Some (Ret buf) ->
        length buf = length (replicate 16 x00)).
Proof.
  apply (generateDefaultPassword_stays_in_buffer rand_example 1
           (replicate 16 x00) (lit "bob")).
  - intros k. unfold rand_example. lia.
  - simpl. lia.
Defined.

(** X12: with a buffer that has no room for the length drawn first and its
    terminator, generateDefaultPassword writes outside the buffer. *)
Theorem generateDefaultPassword_small_buffer (rand : nat -> Z) (fuel : nat)
    (buf0 u : list byte) :
  (forall k : nat, 0 <= rand k) ->
  Z.of_nat (length buf0) <= Z.rem (rand 0%nat) 15 + 1 ->
  generateDefaultPassword rand (S fuel) buf0 u = Some Fault.
Proof.
  intros Hr Hsmall. unfold generateDefaultPassword. simpl.
  unfold generate_candidate.
  pose proof (Z.rem_bound_pos (rand 0%nat) 15 (Hr 0%nat) ltac:(lia)) as B.
  set (len := Z.rem (rand 0%nat) 15 + 1) in *.
  destruct (decide (Z.of_nat (length buf0) = len)) as [E|E].
  - destruct (fill_password_writes rand Hr (Z.to_nat len) 1 buf0 0)
      as (chars & F & L & A); [lia|].
    change (Z.of_nat 0) with 0 in F.
    rewrite take_0, Nat.add_0_l, app_nil_l in F.
    rewrite F. cbn [bind fst snd]. unfold store.
    rewrite length_app, length_drop.
    destruct (Z.ltb_spec len (Z.of_nat (length chars
                                        + (length buf0 - Z.to_nat len))));
      [lia|].
    rewrite andb_false_r. reflexivity.
  - pose proof (fill_password_overrun rand Hr (Z.to_nat len) 1 buf0 0) as F.
    change (Z.of_nat 0) with 0 in F. rewrite F by lia. reflexivity.
Qed.

Lemma generateDefaultPassword_small_buffer_witness :
  generateDefaultPassword rand_example 1 (replicate 8 x00) (lit "bob")
  = Some Fault.
Proof.
  apply (generateDefaultPassword_small_buffer rand_example 0
           (replicate 8 x00) (lit "bob")).
  - intros k. unfold rand_example. lia.
  - vm_compute. discriminate.
Defined.

(** X13: one round of the generator writes rand() % 15 + 1 alphanumeric
    characters at the start of the buffer and a terminator behind them,
    leaves the bytes after the terminator as they were, and calls rand()
    once for the length and once for each character. *)
Theorem generate_candidate_round (rand : nat -> Z) (calls : nat)
    (buf : list byte) :
  (forall k : nat, 0 <= rand k) -> (16 <= length buf)%nat ->
  exists chars : list byte,
    generate_candidate rand calls buf
    = Ret (chars ++ x00 :: drop (S (length chars)) buf,
           (S calls + length chars)%nat)
    /\ Z.of_nat (length chars) = Z.rem (rand calls) 15 + 1
    /\ Forall alphanumeric chars.
Proof.
  intros Hr Hlen. apply generate_candidate_writes; [assumption|].
  pose proof (Z.rem_bound_pos (rand calls) 15 (Hr calls) ltac:(lia)). lia.
Qed.

Lemma generate_candidate_round_witness :
  exists chars : list byte,
    generate_candidate rand_example 0 (replicate 16 x00)
    = Ret (chars ++ x00 :: drop (S (length chars)) (replicate 16 x00),
           (1 + length chars)%nat)
    /\ Z.of_nat (length chars) = Z.rem (rand_example 0) 15 + 1
    /\ Forall alphanumeric chars.
Proof.
  apply (generate_candidate_round rand_example 0 (replicate 16 x00)).
  - intros k. unfold rand_example. lia.
  - simpl. lia.
Defined.

Lemma rand_alternate_nonneg (k : nat) : 0 <= rand_alternate k.
Proof. unfold rand_alternate. destruct (Nat.even k); lia. Qed.

Lemma rand_alternate_length_call (r : nat) :
  length_call rand_alternate r = (2 * r)%nat.
Proof.
  induction r as [|r IH]; [reflexivity|].
  cbn [length_call]. rewrite IH. unfold rand_alternate.
  rewrite Nat.even_mul. cbn [Nat.even orb].
  change (Z.to_nat (Z.rem 0 15 + 1)) with 1%nat. lia.
Qed.

Lemma rand_alternate_short (r : nat) :
  Z.rem (rand_alternate (length_call rand_alternate r)) 15 + 1 < 3.
Proof.
  rewrite rand_alternate_length_call. unfold rand_alternate.
  rewrite Nat.even_mul. cbn [Nat.even orb]. reflexivity.
Qed.

(** X14: the retry loop has no bound: when the length drawn in every round
    is below 3, every candidate is rejected and no number of rounds
    produces a password, whatever characters are drawn. *)
Theorem generateDefaultPassword_short_draws_never_end (rand : nat -> Z)
    (buf0 u : list byte) :
  (forall k : nat, 0 <= rand k) ->
  (forall r : nat, Z.rem (rand (length_call rand r)) 15 + 1 < 3) ->
  (16 <= length buf0)%nat ->
  forall fuel : nat, generateDefaultPassword rand fuel buf0 u = None.
Proof.
  intros Hr Hshort Hlen fuel.
  exact (generateDefaultPassword_loop_short_draws rand Hr u Hshort fuel 0%nat
           buf0 Hlen).
Qed.

Lemma generateDefaultPassword_short_draws_never_end_witness :
  generateDefaultPassword rand_alternate 1000 (replicate 16 x00) (lit "bob")
  = None.
Proof.
  apply (generateDefaultPassword_short_draws_never_end rand_alternate
           (replicate 16 x00) (lit "bob")).
  - exact rand_alternate_nonneg.
  - exact rand_alternate_short.
  - simpl. lia.
Defined.

(** X15: the username has no effect on the password generated. *)
Theorem generateDefaultPassword_ignores_username (rand : nat -> Z)
    (fuel : nat) (buf0 u u' : list byte) :
  generateDefaultPassword rand fuel buf0 u
  = generateDefaultPassword rand fuel buf0 u'.
Proof.
  apply generateDefaultPassword_loop_username.
Qed.

(** ** Reading a word into a buffer *)

Lemma store_inside (buf : list byte) (i : nat) (c : byte) :
  (i < length buf)%nat -> store buf (Z.of_nat i) c = Ret (<[i := c]> buf).
Proof.
  intros H. unfold store.
  destruct (Z.leb_spec 0 (Z.of_nat i)); [|lia].
  destruct (Z.ltb_spec (Z.of_nat i) (Z.of_nat (length buf))); [|lia].
  rewrite Nat2Z.id. reflexivity.
Qed.

Lemma store_outside (buf : list byte) (i : nat) (c : byte) :
  (length buf <= i)%nat -> store buf (Z.of_nat i) c = Fault.
Proof.
  intros H. unfold store.
  destruct (Z.ltb_spec (Z.of_nat i) (Z.of_nat (length buf))); [lia|].
  rewrite andb_false_r. reflexivity.
Qed.

(** A word that fits with its terminator is written over the start of the
    buffer; the bytes behind the terminator stay. *)
Lemma store_string_writes (word : list byte) :
  forall (buf : list byte) (i : nat),
    (i + length word < length buf)%nat ->
    store_string buf (Z.of_nat i) word
    = Ret (take i buf ++ word ++ x00 :: drop (i + length word + 1) buf).
Proof.
  induction word as [|c word IH]; intros buf i Hfit; simpl in *.
  - rewrite store_inside by lia. rewrite insert_take_drop by lia.
    replace (i + 0 + 1)%nat with (S i) by lia. reflexivity.
  - rewrite store_inside by lia. cbn [bind].
    replace (Z.of_nat i + 1) with (Z.of_nat (S i)) by lia.
    rewrite IH by (rewrite length_insert; lia).
    rewrite (take_S_r _ i c) by (apply list_lookup_insert_eq; lia).
    rewrite take_insert_ge by lia. rewrite drop_insert_lt by lia.
    rewrite <- app_assoc. simpl.
    replace (S (i + length word + 1)) with (i + S (length word) + 1)%nat
      by lia.
    reflexivity.
Qed.

(** A word that does not fit with its terminator is written past the end
    of the buffer. *)
Lemma store_string_overrun (word : list byte) :
  forall (buf : list byte) (i : nat),
    (i <= length buf)%nat -> (length buf <= i + length word)%nat ->
    store_string buf (Z.of_nat i) word = Fault.
Proof.
  induction word as [|c word IH]; intros buf i Hi Hfit; simpl in *.
  - apply store_outside. lia.
  - destruct (decide (i < length buf)%nat) as [Hlt|Hge].
    + rewrite store_inside by lia. cbn [bind].
      replace (Z.of_nat i + 1) with (Z.of_nat (S i)) by lia.
      apply IH; rewrite length_insert; lia.
    + rewrite store_outside by lia. reflexivity.
Qed.

Lemma skip_space_head (input : list byte) (c : byte) (rest : list byte) :
  skip_space input = c :: rest -> isspace (char_to_int c) = false.
Proof.
  induction input as [|d input IH]; simpl; [discriminate|].
  destruct (isspace (char_to_int d)) eqn:E; [assumption|].
  intros [= -> _]. assumption.
Qed.

(** At the end of the input [scanf] stores nothing. *)
Lemma scanf_s_end_of_input (buf : list byte) (w : world) :
  skip_space (stdin w) = [] ->
  scanf_s buf w = Ret (buf, World [] (stdout w)).
Proof. intros H. unfold scanf_s. rewrite H. reflexivity. Qed.

(** Otherwise it stores the next word. *)
Lemma scanf_s_word (buf : list byte) (w : world) (word rest : list byte) :
  read_word (skip_space (stdin w)) = (word, rest) -> word <> [] ->
  scanf_s buf w
  = (buf' <~ store_string buf 0 word ;; Ret (buf', World rest (stdout w))).
Proof.
  intros H Hne. unfold scanf_s.
  destruct (skip_space (stdin w)) as [|c input] eqn:E.
  - simpl in H. congruence.
  - rewrite H. reflexivity.
Qed.

Lemma stdout_printf (text : list byte) (w : world) :
  stdout (printf text w) = stdout w ++ text.
Proof. reflexivity. Qed.

Lemma stdout_printf_s (text s : list byte) (w : world) :
  stdout (printf_s text s w) = stdout w ++ text ++ c_str s ++ [x0a].
Proof. reflexivity. Qed.

Lemma scanf_s_stdout (buf buf' : list byte) (w w' : world) :
  scanf_s buf w = Ret (buf', w') -> stdout w' = stdout w.
Proof.
  unfold scanf_s. destruct (skip_space (stdin w)) as [|c input].
  - intros [= _ <-]. reflexivity.
  - destruct (read_word (c :: input)) as [word rest].
    destruct (store_string buf 0 word); simpl; [|discriminate].
    intros [= _ <-]. reflexivity.
Qed.

(** ** Further properties of the dialogue *)

Lemma promptForNewPassword_result (custom u : list byte) (w : world)
    (b : bool) (custom' : list byte) (w' : world) :
  promptForNewPassword custom u w = Ret (b, custom', w') ->
  isStrongPassword u custom' = Ret b
  /\ exists text, stdout w' = stdout w ++ text.
Proof.
  unfold promptForNewPassword.
  destruct (scanf_s custom (printf (lit "Enter new password: ") w))
    as [[custom1 w1]|] eqn:S; [|discriminate]. cbn [bind].
  apply scanf_s_stdout in S. rewrite stdout_printf in S.
  destruct (isStrongPassword u custom1) as [[|]|] eqn:Q; cbn [bind];
    [| |discriminate]; intros [= <- <- <-]; (split; [assumption|]);
    rewrite stdout_printf, S, <- app_assoc; eauto.
Qed.

(** The loop is left only with a password the strong policy accepts. *)
Lemma prompt_until_strong_accepts (u : list byte) :
  forall (fuel : nat) (custom : list byte) (w : world)
         (custom' : list byte) (w' : world),
    prompt_until_strong fuel custom u w = Some (Ret (custom', w')) ->
    isStrongPassword u custom' = Ret true
    /\ exists text, stdout w' = stdout w ++ text.
Proof.
  induction fuel as [|fuel IH]; intros custom w custom' w'; simpl;
    [discriminate|].
  destruct (promptForNewPassword custom u w) as [[[b custom1] w1]|] eqn:P;
    [|discriminate].
  apply promptForNewPassword_result in P. destruct P as (Hb & text & Ht).
  destruct b; simpl.
  - intros [= <- <-]. split; [assumption|eauto].
  - intros H. apply IH in H. destruct H as (Hs & text' & Ht').
    split; [assumption|]. rewrite Ht', Ht, <- app_assoc. eauto.
Qed.

Lemma isStrongPassword_decides (u p : list byte) :
  strlen u <= strlen p -> strlen p < SIZE_MODULUS ->
  exists b : bool,
    isStrongPassword u p = Ret b
    /\ (b = true <->
        strong_checks p /\ (c_str u = [] \/ ~ occurs_ci (c_str u) (c_str p))).
Proof.
  intros Hle Hsz.
  destruct (containsUsername_fits u p Hle Hsz) as (found & R & W).
  destruct (strong_checks_dec p) as [C|C].
  - rewrite (isStrongPassword_searches u p C), R. cbn [bind].
    destruct found.
    + exists false. split; [reflexivity|]. split; [discriminate|].
      intros (_ & [E|N]); destruct W as [W _]; destruct (W eq_refl); tauto.
    + exists true. split; [reflexivity|]. split; [intros _|reflexivity].
      split; [assumption|].
      destruct (c_str u) as [|c u'] eqn:E; [left; reflexivity|right].
      intros O. destruct W as [_ W].
      assert (false = true) by (apply W; split; [discriminate|assumption]).
      discriminate.
  - exists false. split; [apply isStrongPassword_rejects; assumption|].
    split; [discriminate|tauto].
Qed.

(** X16: when the next word of the input fits in the buffer with its
    terminator and the username is not longer than the word,
    promptForNewPassword stores the word over the start of the buffer,
    prints the prompt and its verdict, and returns true exactly when the
    word passes the six checks and the username is empty or does not occur
    in it. *)
Theorem promptForNewPassword_judges_word (custom u : list byte) (w : world)
    (word rest : list byte) :
  read_word (skip_space (stdin w)) = (word, rest) -> word <> [] ->
  (length word < length custom)%nat ->
  strlen word = Z.of_nat (length word) ->
  strlen u <= Z.of_nat (length word) ->
  Z.of_nat (length word) <= INT_MAX ->
  exists b : bool,
    promptForNewPassword custom u w
    = Ret (b, word ++ x00 :: drop (length word + 1) custom,
           World rest
             (stdout w ++ lit "Enter new password: "
              ++ (if b then line "Strong password!"
                  else line "Your password is weak. Try again!")))
    /\ (b = true <->
        strong_checks word
        /\ (c_str u = [] \/ ~ occurs_ci (c_str u) word)).
Proof.
  intros Hread Hne Hfit Hnul Hu Hmax.
  set (buffer := word ++ x00 :: drop (length word + 1) custom).
  assert (Hstr : c_str buffer = word).
  { apply c_str_terminated, strlen_exact_no_nul. assumption. }
  assert (Hword : c_str word = word).
  { apply c_str_id, strlen_exact_no_nul. assumption. }
  assert (Hlen : strlen buffer = Z.of_nat (length word)).
  { rewrite strlen_c_str, Hstr. reflexivity. }
  destruct (isStrongPassword_decides u buffer) as (b & R & W).
  { rewrite Hlen. assumption. }
  { rewrite Hlen. unfold INT_MAX, SIZE_MODULUS in *. lia. }
  exists b. split.
  - unfold promptForNewPassword.
    rewrite (scanf_s_word custom (printf (lit "Enter new password: ") w)
               word rest Hread Hne).
    pose proof (store_string_writes word custom 0 ltac:(lia)) as St.
    change (Z.of_nat 0) with 0 in St. rewrite St.
    rewrite take_0, Nat.add_0_l, app_nil_l. fold buffer. cbn [bind].
    rewrite R. cbn [bind]. unfold printf. simpl.
    destruct b; rewrite <- app_assoc; reflexivity.
  - rewrite W, Hstr. unfold strong_checks. rewrite Hstr, Hlen, Hword, Hnul.
    reflexivity.
Qed.

Lemma promptForNewPassword_judges_word_witness :
  exists b : bool,
    promptForNewPassword (replicate 100 x00) (lit "bob")
      (World (line "Passw0rd") [])
    = Ret (b, lit "Passw0rd" ++ x00
              :: drop (length (lit "Passw0rd") + 1) (replicate 100 x00),
           World [x0a]
             ([] ++ lit "Enter new password: "
              ++ (if b then line "Strong password!"
                  else line "Your password is weak. Try again!")))
    /\ (b = true <->
        strong_checks (lit "Passw0rd")
        /\ (c_str (lit "bob") = []
            \/ ~ occurs_ci (c_str (lit "bob")) (lit "Passw0rd"))).
Proof.
  apply (promptForNewPassword_judges_word (replicate 100 x00) (lit "bob")
           (World (line "Passw0rd") []) (lit "Passw0rd") [x0a]).
  - reflexivity.
  - discriminate.
  - vm_compute. lia.
  - reflexivity.
  - vm_compute. discriminate.
  - vm_compute. discriminate.
Defined.

(** X17: a word that is at least as long as the buffer is stored whole all
    the same: promptForNewPassword writes past the end of customPassword. *)
Theorem promptForNewPassword_long_word_overruns (custom u : list byte)
    (w : world) (word rest : list byte) :
  read_word (skip_space (stdin w)) = (word, rest) -> word <> [] ->
  (length custom <= length word)%nat ->
  promptForNewPassword custom u w = Fault.
Proof.
  intros Hread Hne Hlong. unfold promptForNewPassword.
  rewrite (scanf_s_word custom (printf (lit "Enter new password: ") w)
             word rest Hread Hne).
  pose proof (store_string_overrun word custom 0) as St.
  change (Z.of_nat 0) with 0 in St. rewrite St by lia. reflexivity.
Qed.

Lemma promptForNewPassword_long_word_overruns_witness :
  promptForNewPassword (replicate 4 x00) (lit "bob")
    (World (line "Passw0rd") []) = Fault.
Proof.
  apply (promptForNewPassword_long_word_overruns (replicate 4 x00) (lit "bob")
           (World (line "Passw0rd") []) (lit "Passw0rd") [x0a]).
  - reflexivity.
  - discriminate.
  - vm_compute. lia.
Defined.

(** X18: the answer to the question of main is read into an array of 3
    bytes: an answer of three characters or more, "yes" say, is written
    past its end. *)
Theorem main_long_answer_overruns (rand : nat -> Z) (fuel : nat)
    (username0 default0 custom0 choice0 : list byte) (w : world)
    (username : list byte) (w1 : world) (generated answer rest : list byte) :
  scanf_s username0 (printf (lit "Enter username: ") w) = Ret (username, w1) ->
  generateDefaultPassword rand fuel default0 username = Some (Ret generated) ->
  read_word (skip_space (stdin w1)) = (answer, rest) ->
  length choice0 = 3%nat -> (3 <= length answer)%nat ->
  main rand fuel username0 default0 custom0 choice0 w = Some Fault.
Proof.
  intros Hname Hgen Hread Hsize Hlong. unfold main.
  rewrite Hname, Hgen.
  rewrite (scanf_s_word choice0 _ answer rest).
  - pose proof (store_string_overrun answer choice0 0) as St.
    change (Z.of_nat 0) with 0 in St. rewrite St by lia. reflexivity.
  - exact Hread.
  - intros ->. simpl in Hlong. lia.
Qed.

Lemma main_long_answer_overruns_witness :
  main rand_example 1 (replicate 100 x00) (replicate 16 x00)
    (replicate 100 x00) (replicate 3 x00)
    (World (line "bob" ++ line "yes") [])
  = Some Fault.
Proof.
  apply (main_long_answer_overruns rand_example 1 (replicate 100 x00)
           (replicate 16 x00) (replicate 100 x00) (replicate 3 x00)
           (World (line "bob" ++ line "yes") [])
           (lit "bob" ++ replicate 97 x00)
           (World (x0a :: line "yes") (lit "Enter username: "))
           (lit "St4FgRs3" ++ replicate 8 x00) (lit "yes") [x0a]).
  - vm_compute. reflexivity.
  - vm_compute. reflexivity.
  - reflexivity.
  - reflexivity.
  - vm_compute. lia.
Defined.

(** X19: at the end of the input nothing is read any more: when the
    password in the buffer is rejected, it is rejected in every later
    round, and the loop of main never ends. *)
Theorem prompt_until_strong_end_of_input (u custom : list byte) :
  isStrongPassword u custom = Ret false ->
  forall (fuel : nat) (w : world),
    skip_space (stdin w) = [] ->
    prompt_until_strong fuel custom u w = None.
Proof.
  intros Hweak. induction fuel as [|fuel IH]; intros w Hend; [reflexivity|].
  simpl. unfold promptForNewPassword.
  rewrite scanf_s_end_of_input by exact Hend. cbn [bind].
  rewrite Hweak. cbn [bind negb]. apply IH. reflexivity.
Qed.

Lemma prompt_until_strong_end_of_input_witness :
  prompt_until_strong 1000 (lit "weak") (lit "bob") (World [x0a] []) = None.
Proof.
  apply (prompt_until_strong_end_of_input (lit "bob") (lit "weak")).
  - vm_compute. reflexivity.
  - reflexivity.
Defined.

(** X20: every run of main that returns has exit status 0, has shown after
    the first prompt a generated password that the default policy accepts,
    and ends either with the line that says the password was not changed
    or with "Successfully created password: " and a password that
    isStrongPassword accepts for the username that was read. *)
Theorem main_returns (rand : nat -> Z) (fuel : nat)
    (username0 default0 custom0 choice0 : list byte) (w : world)
    (status : Z) (w' : world) :
  main rand fuel username0 default0 custom0 choice0 w
  = Some (Ret (status, w')) ->
  status = 0
  /\ exists (username : list byte) (w1 : world) (generated tail : list byte),
       scanf_s username0 (printf (lit "Enter username: ") w)
       = Ret (username, w1)
       /\ isStrongDefaultPassword username generated = true
       /\ stdout w'
          = stdout w ++ lit "Enter username: "
            ++ line "Generating a default password..."
            ++ lit "Generated default password: " ++ c_str generated ++ [x0a]
            ++ lit "Manually change password? (y/n): " ++ tail
       /\ (tail = line "You chose not to change your password."
           \/ exists text custom : list byte,
                tail = text ++ lit "Successfully created password: "
                       ++ c_str custom ++ [x0a]
                /\ isStrongPassword username custom = Ret true).
Proof.
  unfold main.
  destruct (scanf_s username0 (printf (lit "Enter username: ") w))
    as [[username w1]|] eqn:Hname; [|discriminate].
  pose proof (scanf_s_stdout _ _ _ _ Hname) as Hout1.
  rewrite stdout_printf in Hout1.
  destruct (generateDefaultPassword rand fuel default0 username)
    as [[generated|]|] eqn:Hgen; [|discriminate|discriminate].
  apply generateDefaultPassword_loop_accepts in Hgen.
  match goal with
  | |- context [scanf_s choice0 ?w2] =>
      destruct (scanf_s choice0 w2) as [[choice w3]|] eqn:Hchoice;
        [|discriminate]
  end.
  pose proof (scanf_s_stdout _ _ _ _ Hchoice) as Hout3.
  rewrite stdout_printf, stdout_printf_s, stdout_printf, Hout1 in Hout3.
  destruct ((strcmp choice (lit "y") =? 0) || (strcmp choice (lit "Y") =? 0)).
  - destruct (prompt_until_strong fuel custom0 username w3)
      as [[[custom w4]|]|] eqn:Hloop; [|discriminate|discriminate].
    apply prompt_until_strong_accepts in Hloop.
    destruct Hloop as (Hstrong & text & Hout4).
    intros [= <- <-]. split; [reflexivity|].
    exists username, w1, generated,
      (text ++ lit "Successfully created password: " ++ c_str custom ++ [x0a]).
    split; [reflexivity|]. split; [assumption|]. split.
    + rewrite stdout_printf_s, Hout4, Hout3.
      rewrite <- !app_assoc. reflexivity.
    + right. exists text, custom. split; [reflexivity|assumption].
  - intros [= <- <-]. split; [reflexivity|].
    exists username, w1, generated,
      (line "You chose not to change your password.").
    split; [reflexivity|]. split; [assumption|]. split.
    + rewrite stdout_printf, Hout3. rewrite <- !app_assoc. reflexivity.
    + left. reflexivity.
Qed.

Lemma main_returns_witness :
  0 = 0
  /\ exists (username : list byte) (w1 : world) (generated tail : list byte),
       scanf_s (replicate 100 x00)
         (printf (lit "Enter username: ")
            (World (line "bob" ++ line "y" ++ line "Passw0rd") []))
       = Ret (username, w1)
       /\ isStrongDefaultPassword username generated = true
       /\ stdout
            (World [x0a]
               (lit "Enter username: "
                ++ line "Generating a default password..."
                ++ line "Generated default password: St4FgRs3"
                ++ lit "Manually change password? (y/n): "
                ++ lit "Enter new password: " ++ line "Strong password!"
                ++ line "Successfully created password: Passw0rd"))
          = stdout (World (line "bob" ++ line "y" ++ line "Passw0rd") [])
            ++ lit "Enter username: "
            ++ line "Generating a default password..."
            ++ lit "Generated default password: " ++ c_str generated ++ [x0a]
            ++ lit "Manually change password? (y/n): " ++ tail
       /\ (tail = line "You chose not to change your password."
           \/ exists text custom : list byte,
                tail = text ++ lit "Successfully created password: "
                       ++ c_str custom ++ [x0a]
                /\ isStrongPassword username custom = Ret true).
Proof.
  apply (main_returns rand_example 1 (replicate 100 x00) (replicate 16 x00)
           (replicate 100 x00) (replicate 3 x00)
           (World (line "bob" ++ line "y" ++ line "Passw0rd") [])).
  vm_compute. reflexivity.
Defined.

(** X21: when the username is not longer than the password, the bytes
    stored behind the terminator of the password have no effect on
    containsUsername and isStrongPassword. *)
Theorem username_search_stops_at_terminator (u buf : list byte) :
  strlen u <= strlen buf -> strlen buf <= INT_MAX ->
  containsUsername u buf = containsUsername u (c_str buf)
  /\ isStrongPassword u buf = isStrongPassword u (c_str buf).
Proof.
  intros Hle Hmax.
  assert (Hsz : strlen buf < SIZE_MODULUS)
    by (unfold INT_MAX, SIZE_MODULUS in *; lia).
  pose proof (strlen_c_str_idemp buf) as Hl.
  assert (Hfound : containsUsername u buf = containsUsername u (c_str buf)).
  { destruct (containsUsername_fits u buf Hle Hsz) as (b & R & W).
    destruct (containsUsername_fits u (c_str buf)) as (b' & R' & W');
      [lia|lia|].
    rewrite c_str_idemp in W'. rewrite R, R'. f_equal.
    destruct b, b'; try reflexivity.
    - symmetry. apply W', W. reflexivity.
    - apply W, W'. reflexivity. }
  split; [assumption|].
  unfold isStrongPassword, hasMinimumLength.
  rewrite <- Hfound, Hl, hasUpper_c_str, hasLower_c_str, hasDigit_c_str,
    isAlphanumericOnly_c_str.
  unfold containsString. rewrite containsString_loop_c_str. reflexivity.
Qed.

Lemma username_search_stops_at_terminator_witness :
  containsUsername (lit "bob") (lit "Passw0rd" ++ x00 :: lit "bob")
  = containsUsername (lit "bob") (c_str (lit "Passw0rd" ++ x00 :: lit "bob"))
  /\ isStrongPassword (lit "bob") (lit "Passw0rd" ++ x00 :: lit "bob")
     = isStrongPassword (lit "bob")
         (c_str (lit "Passw0rd" ++ x00 :: lit "bob")).
Proof.
  apply (username_search_stops_at_terminator (lit "bob")
           (lit "Passw0rd" ++ x00 :: lit "bob")).
  - vm_compute. discriminate.
  - vm_compute. discriminate.
Defined.
